(** * EduPath engine: catalog lookup, prerequisite resolver and recommenders

    A shallow embedding of the Python modules
    [engine/binary_search.py], [engine/loader.py], [engine/prerequisite.py]
    and [engine/recommender.py], with the properties the specification
    states about them.

    Conventions of the embedding:
    - a course dict is the record [Course]; its numeric columns
      ([est_hours], [course_rating]) are exact rationals, which covers both
      the integers and the finite floats that [pd.to_numeric] produces;
    - Python integers are [Z];
    - a Python [dict] keyed by course id is a [gmap Z _], a [set] of ids is
      a [gset Z];
    - a call that may raise is given an [outcome] with the exception as a
      constructor.

    A course dict always has its eight columns, as [load_and_preprocess]
    leaves them: ids and prerequisite ids are integers, the text columns are
    strings and the numeric columns are finite numbers.  Strings are byte
    strings, and [lower] changes the ASCII letters only. *)

From Stdlib Require Import ZArith QArith Ascii String.
From stdpp Require Import gmap list strings sorting.
From Equations Require Import Equations.
From Equations.Prop Require Import Logic.

Local Open Scope Z_scope.

(** ** Data model *)

Record Course := mkCourse {
  course_id : Z;
  course_title : string;
  category : string;
  course_organization : string;
  course_difficulty : string;
  est_hours : Q;
  course_rating : Q;
  prerequisite_ids : list Z
}.

(** What a call does: it returns a value or raises.  [IndexError] is
    Python's; [InvalidInput] is the error the specification names for the
    construction of a catalog. *)
Inductive outcome (A : Type) : Type :=
  | Return (a : A)
  | IndexError
  | InvalidInput.
Arguments Return {A} a.
Arguments IndexError {A}.
Arguments InvalidInput {A}.

(** ** Python primitives used by the engine *)

Module Py.

(** [l[i]] for a Python list: a negative index counts from the end, and
    an index outside [-len, len) raises [IndexError] (here [None]). *)
Definition index {A} (l : list A) (i : Z) : option A :=
  if decide (0 <= i) then l !! Z.to_nat i
  else if decide (- Z.of_nat (length l) <= i)
       then l !! Z.to_nat (Z.of_nat (length l) + i)
       else None.

(** [l[:k]]: the first [k] elements, or all but the last [-k] ones when
    [k] is negative. *)
Definition slice_to {A} (l : list A) (k : Z) : list A :=
  if decide (0 <= k) then take (Z.to_nat k) l
  else take (Z.to_nat (Z.of_nat (length l) + k)) l.

(** [int(x)] on a finite number: truncation toward zero. *)
Definition int (x : Q) : Z := Z.quot (Qnum x) (Z.pos (Qden x)).

(** [enumerate(l)] as a list of pairs. *)
Definition enumerate {A} (l : list A) : list (nat * A) :=
  imap (λ i x, (i, x)) l.

(** [sorted(l, key=key, reverse=True)]: Python's sort is stable, also
    with [reverse=True], so the result is the one arrangement of [l] that
    has the keys in descending order and keeps elements with equal keys
    in their input order.  It is computed here by insertion from the
    right: an element moves past those to its right that have a strictly
    larger key. *)
Section Sorted.
Context {A : Type} (key : A → Q).

Fixpoint insert_desc (x : A) (l : list A) : list A :=
  match l with
  | [] => [x]
  | y :: l' =>
      if Qle_bool (key y) (key x) then x :: y :: l'
      else y :: insert_desc x l'
  end.

Fixpoint sorted_desc (l : list A) : list A :=
  match l with
  | [] => []
  | x :: l' => insert_desc x (sorted_desc l')
  end.
End Sorted.

(** [s.lower()], on the ASCII letters. *)
Definition lower_ascii (c : ascii) : ascii :=
  let n := nat_of_ascii c in
  if ((65 <=? n) && (n <=? 90))%nat then ascii_of_nat (n + 32) else c.

Fixpoint lower (s : string) : string :=
  match s with
  | EmptyString => EmptyString
  | String c s' => String (lower_ascii c) (lower s')
  end.

(** [s in t] on strings: [s] occurs in [t] as a contiguous substring. *)
Fixpoint contains (t s : string) : bool :=
  String.prefix s t ||
  match t with
  | EmptyString => false
  | String _ t' => contains t' s
  end.

(** Truthiness of an optional string argument ([if category:]). *)
Definition truthy (s : option string) : option string :=
  match s with
  | Some EmptyString => None
  | _ => s
  end.

End Py.

(** ** engine/binary_search.py *)

(** The [while left <= right] loop of [binary_search]; the bounds [left]
    and [right] are [lo] and [hi] here ([left] and [right] are constructor
    names).  Besides the outcome, the loop reports the [mid] indices it
    reads, in order.  [//] is floor division, as [Z.div] is. *)
Equations? bs_loop (courses_list : list Course) (target_id lo hi : Z)
  : outcome (option Course) * list Z
  by wf (Z.to_nat (hi - lo + 1)) lt :=
bs_loop courses_list target_id lo hi with inspect (lo <=? hi) := {
  | exist _ false _ => (Return None, []);
  | exist _ true Hle with inspect (Py.index courses_list ((lo + hi) `div` 2)) := {
    | exist _ None _ => (IndexError, [(lo + hi) `div` 2]);
    | exist _ (Some c) _ with inspect (course_id c =? target_id) := {
      | exist _ true _ => (Return (Some c), [(lo + hi) `div` 2]);
      | exist _ false _ with inspect (course_id c <? target_id) := {
        | exist _ true _ =>
            let r := bs_loop courses_list target_id
                             ((lo + hi) `div` 2 + 1) hi in
            (r.1, (lo + hi) `div` 2 :: r.2);
        | exist _ false _ =>
            let r := bs_loop courses_list target_id
                             lo ((lo + hi) `div` 2 - 1) in
            (r.1, (lo + hi) `div` 2 :: r.2) } } } }.
Proof.
  all: clear bs_loop.
  all: pose proof (Z.div_mod (lo + hi) 2 ltac:(lia)).
  all: pose proof (Z.mod_pos_bound (lo + hi) 2 ltac:(lia)).
  all: lia.
Qed.

Definition binary_search_run (courses_list : list Course) (target_id : Z)
  : outcome (option Course) * list Z :=
  bs_loop courses_list target_id 0 (Z.of_nat (length courses_list) - 1).

Definition binary_search (courses_list : list Course) (target_id : Z)
  : outcome (option Course) :=
  (binary_search_run courses_list target_id).1.

(** The indices [binary_search] reads from the list, in order. *)
Definition binary_search_mids (courses_list : list Course) (target_id : Z)
  : list Z :=
  (binary_search_run courses_list target_id).2.

(** ** engine/loader.py *)

(** [build_course_index]: the dict comprehension
    [{c['course_id']: c for c in courses}] stores the courses in list
    order, so a later course replaces an earlier one with the same id. *)
Definition build_course_index (courses : list Course) : gmap Z Course :=
  foldl (λ index c, <[course_id c := c]> index) ∅ courses.

(** The call as a whole: the comprehension has no failing step. *)
Definition build_course_index_run (courses : list Course)
  : outcome (gmap Z Course) :=
  Return (build_course_index courses).

(** The list is sorted by id, strictly: what [load_and_preprocess]
    establishes with [sort_values('course_id')] on a table without repeated
    ids. *)
Definition sorted_by_id (courses : list Course) : Prop :=
  Sorted Z.lt (course_id <$> courses).

(** Two entries of the list, at different positions, carry the same id. *)
Definition has_duplicate_id (courses : list Course) : Prop :=
  ∃ (i j : nat) ci cj, i ≠ j ∧ courses !! i = Some ci ∧ courses !! j = Some cj
                ∧ course_id ci = course_id cj.

(** ** engine/prerequisite.py *)

(** The value [get_learning_path] returns for a known target. *)
Record LearningPath := mkLearningPath {
  target : Course;
  levels : list (list Course);
  flat_path : list Course;
  total_hours : Z;
  cycle_detected : bool
}.

(** The variables of the [for pid in current_frontier] loop. *)
Record scan := mkScan {
  scan_seen : gset Z;
  level_courses : list Course;
  next_frontier : list Z;
  scan_cycle : bool
}.

(** One turn of the [for pid in current_frontier] loop. *)
Definition visit (courses_index : gmap Z Course) (s : scan) (pid : Z) : scan :=
  if decide (pid ∈ scan_seen s) then
    mkScan (scan_seen s) (level_courses s) (next_frontier s) true
  else
    match courses_index !! pid with
    | None => s
    | Some course =>
        let seen := scan_seen s ∪ {[pid]} in
        mkScan seen
               (level_courses s ++ [course])
               (next_frontier s
                  ++ filter (λ sub_id, sub_id ∉ seen) (prerequisite_ids course))
               (scan_cycle s)
    end.

(** The variables of the [while] loop. *)
Record walk := mkWalk {
  walk_seen : gset Z;
  walk_levels : list (list Course);
  current_frontier : list Z;
  depth : Z;
  walk_cycle : bool
}.

(** [current_frontier and depth < max_depth] *)
Definition walk_continues (max_depth : Z) (w : walk) : bool :=
  match current_frontier w with
  | [] => false
  | _ :: _ => depth w <? max_depth
  end.

(** The body of the [while] loop: a scan of the frontier that starts with
    an empty level and an empty next frontier, then the update of the loop
    variables from what the scan leaves. *)
Definition scan_start (w : walk) : scan :=
  mkScan (walk_seen w) [] [] (walk_cycle w).

Definition walk_after (w : walk) (s : scan) : walk :=
  mkWalk (scan_seen s)
         (match level_courses s with
          | [] => walk_levels w
          | _ :: _ => walk_levels w ++ [level_courses s]
          end)
         (next_frontier s)
         (depth w + 1)
         (scan_cycle s).

Definition walk_level (courses_index : gmap Z Course) (w : walk) : walk :=
  walk_after w (foldl (visit courses_index) (scan_start w) (current_frontier w)).

(** The [while] loop; [depth] climbs to [max_depth]. *)
Equations? walk_loop (courses_index : gmap Z Course) (max_depth : Z) (w : walk)
  : walk by wf (Z.to_nat (max_depth - depth w)) lt :=
walk_loop courses_index max_depth w with inspect (walk_continues max_depth w) := {
  | exist _ true Hgo =>
      walk_loop courses_index max_depth (walk_level courses_index w);
  | exist _ false _ => w }.
Proof.
  clear walk_loop. unfold walk_continues in Hgo.
  destruct (current_frontier w); [done|]. apply Z.ltb_lt in Hgo. simpl. lia.
Qed.

(** One turn of the [for c in level] loop that builds [flat_path]; the
    state is [(flat_path, seen_flat)]. *)
Definition add_flat (acc : list Course * gset Z) (c : Course)
  : list Course * gset Z :=
  if decide (course_id c ∈ acc.2) then acc
  else (acc.1 ++ [c], acc.2 ∪ {[course_id c]}).

(** [flat_path], from [for level in reversed(levels): for c in level]. *)
Definition flatten_levels (lvls : list (list Course)) : list Course :=
  (foldl (λ acc level, foldl add_flat acc level) ([], ∅) (reverse lvls)).1.

(** [sum(int(c.get('est_hours', 0)) for c in flat_path)] *)
Definition sum_hours (path : list Course) : Z :=
  foldl (λ total c, total + Py.int (est_hours c)) 0 path.

(** The walk from a first frontier, and the path built from it. *)
Definition learning_path_from (courses_index : gmap Z Course) (max_depth : Z)
    (tgt : Course) (frontier : list Z) : LearningPath :=
  let w := walk_loop courses_index max_depth (mkWalk ∅ [] frontier 0 false) in
  let flat := flatten_levels (walk_levels w) in
  mkLearningPath tgt (walk_levels w) flat (sum_hours flat) (walk_cycle w).

(** [get_learning_path]; [None] is Python's [None], for an unknown target.
    The first frontier is the target's [prerequisite_ids] as they are. *)
Definition get_learning_path (course_id : Z) (courses_index : gmap Z Course)
    (max_depth : Z) : option LearningPath :=
  match courses_index !! course_id with
  | None => None
  | Some tgt =>
      Some (learning_path_from courses_index max_depth tgt
                               (prerequisite_ids tgt))
  end.

(** The resolver as the specification words it, for comparison: the first
    frontier is the target's [prerequisite_ids] "deduplicated,
    order-preserving", that is, each id kept at its first occurrence. *)
Fixpoint dedup_from (met : gset Z) (ids : list Z) : list Z :=
  match ids with
  | [] => []
  | id :: ids' =>
      if decide (id ∈ met) then dedup_from met ids'
      else id :: dedup_from (met ∪ {[id]}) ids'
  end.

Definition deduplicated (ids : list Z) : list Z := dedup_from ∅ ids.

Definition get_learning_path_deduplicated (course_id : Z)
    (courses_index : gmap Z Course) (max_depth : Z) : option LearningPath :=
  match courses_index !! course_id with
  | None => None
  | Some tgt =>
      Some (learning_path_from courses_index max_depth tgt
                               (deduplicated (prerequisite_ids tgt)))
  end.

(** The default [max_depth]. *)
Definition default_max_depth : Z := 20.

(** ** engine/recommender.py *)

(** The module-level storage of the recommender. *)
Record recommender_state := mkRecommender {
  cosine_sim : option (list (list Q));
  courses_list : option (list Course);
  id_to_index : gmap Z nat
}.

(** The storage when the module is loaded. *)
Definition recommender_unset : recommender_state := mkRecommender None None ∅.

(** The text feature of a course: title, category and difficulty. *)
Definition course_text (c : Course) : string :=
  (course_title c ++ " " ++ category c ++ " " ++ course_difficulty c)%string.

(** [{c['course_id']: idx for idx, c in enumerate(courses_list)}] *)
Definition index_positions (courses : list Course) : gmap Z nat :=
  foldl (λ m p, <[course_id p.2 := p.1]> m) ∅ (Py.enumerate courses).

(** [init_recommender], called on the freshly loaded module.  The
    scikit-learn pipeline ([TfidfVectorizer.fit_transform] followed by
    [cosine_similarity]) is the parameter [tfidf_cosine]: it maps the texts
    to their matrix of pairwise similarities, or to [None] when it raises
    (an empty vocabulary).  The result is the storage the call leaves
    behind: [_courses_list] is assigned before the pipeline runs, the two
    other globals after it. *)
Definition init_recommender
    (tfidf_cosine : list string → option (list (list Q)))
    (courses : list Course) : recommender_state :=
  match tfidf_cosine (course_text <$> courses) with
  | None => mkRecommender None (Some courses) ∅
  | Some sim => mkRecommender (Some sim) (Some courses) (index_positions courses)
  end.

(** [get_similar_courses]; reading a row of the matrix or an entry of the
    course list outside its range raises [IndexError]. *)
Definition get_similar_courses (st : recommender_state) (course_id : Z)
    (top_k : Z) : outcome (list Course) :=
  match cosine_sim st, courses_list st with
  | Some sim, Some courses =>
      match id_to_index st !! course_id with
      | None => Return []
      | Some idx =>
          match sim !! idx with
          | None => IndexError
          | Some row =>
              let scores := Py.enumerate row in
              let scores := Py.sorted_desc snd scores in
              let scores := filter (λ p, p.1 ≠ idx) scores in
              match mapM (λ p : nat * Q, courses !! p.1)
                         (Py.slice_to scores top_k) with
              | None => IndexError
              | Some result => Return result
              end
          end
      end
  | _, _ => Return []
  end.

(** The four filters of [recommend_by_filters], each as the test its list
    comprehension applies. *)
Definition category_matches (cat : string) (c : Course) : bool :=
  Py.contains (Py.lower (category c)) (Py.lower cat).

Definition difficulty_matches (diff : string) (c : Course) : bool :=
  Py.contains (Py.lower (course_difficulty c)) (Py.lower diff).

Definition within_hours (max_hours : Q) (c : Course) : bool :=
  Qle_bool (est_hours c) max_hours.

Definition rated_at_least (min_rating : Q) (c : Course) : bool :=
  Qle_bool min_rating (course_rating c).

(** An optional filter: [if arg: filtered = [c for c in filtered if ...]]. *)
Definition filter_if {A} (arg : option A) (test : A → Course → bool)
    (filtered : list Course) : list Course :=
  match arg with
  | None => filtered
  | Some a => filter (λ c, test a c = true) filtered
  end.

Definition recommend_by_filters (courses : list Course)
    (cat diff : option string) (max_hours min_rating : option Q)
    (top_k : Z) : list Course :=
  let filtered := courses in
  let filtered := filter_if (Py.truthy cat) category_matches filtered in
  let filtered := filter_if (Py.truthy diff) difficulty_matches filtered in
  let filtered := filter_if max_hours within_hours filtered in
  let filtered := filter_if min_rating rated_at_least filtered in
  let filtered := Py.sorted_desc course_rating filtered in
  Py.slice_to filtered top_k.

(** A course passes the filters when each filter that is supplied holds of
    it; a filter that is not supplied holds of every course. *)
Definition satisfies_filters (cat diff : option string)
    (max_hours min_rating : option Q) (c : Course) : bool :=
  from_option (λ a, category_matches a c) true cat
  && from_option (λ a, difficulty_matches a c) true diff
  && from_option (λ h, within_hours h c) true max_hours
  && from_option (λ r, rated_at_least r c) true min_rating.

(** ** Notions used by the statements, and sample data *)

(** A course with the given id, hours and prerequisites. *)
Definition sample_course (id : Z) (hours : Q) (prereqs : list Z) : Course :=
  mkCourse id "Course" "General" "EduPath" "Beginner" hours 4 prereqs.

(** A list sorted strictly by id. *)
Definition sample_sorted : list Course :=
  [sample_course 1 10 []; sample_course 3 12 [1]; sample_course 4 8 [1; 3];
   sample_course 7 5 []; sample_course 9 6 [7]].

(** A list in which id 1 occurs twice. *)
Definition sample_repeated : list Course :=
  [sample_course 1 10 []; sample_course 2 3 []; sample_course 1 12 [2]].

(** Courses A, B and C in a cycle: A requires B, B requires C and C
    requires A. *)
Definition course_A : Course := sample_course 1 5 [2].
Definition course_B : Course := sample_course 2 7 [3].
Definition course_C : Course := sample_course 3 11 [1].
Definition cycle_index : gmap Z Course :=
  build_course_index [course_A; course_B; course_C].

(** The same cycle read the other way: A is required by B, B by C and C
    by A. *)
Definition course_A' : Course := sample_course 1 5 [3].
Definition course_B' : Course := sample_course 2 7 [1].
Definition course_C' : Course := sample_course 3 11 [2].
Definition cycle_index' : gmap Z Course :=
  build_course_index [course_A'; course_B'; course_C'].

(** The catalog of the worked example, with hours that are not whole. *)
Definition half_1 : Course := sample_course 1 (3 # 2) [].
Definition half_2 : Course := sample_course 2 (3 # 2) [1].
Definition half_3 : Course := sample_course 3 4 [1; 2].
Definition half_index : gmap Z Course :=
  build_course_index [half_1; half_2; half_3].

(** A chain of [n] courses, course [i] requiring course [i + 1], the
    last one a dangling id. *)
Definition chain (n : nat) : list Course :=
  (λ i : Z, sample_course i 1 [i + 1]) <$> seqZ 1 (Z.of_nat n).

(** Two scans agree up to the flag: they hold the same [seen], level and
    next frontier, and the second has raised the flag only if the first
    has. *)
Definition scan_agree (s s' : scan) : Prop :=
  scan_seen s = scan_seen s' ∧ level_courses s = level_courses s'
  ∧ next_frontier s = next_frontier s'
  ∧ (scan_cycle s' = true → scan_cycle s = true).

Definition walk_agree (w w' : walk) : Prop :=
  walk_seen w = walk_seen w' ∧ walk_levels w = walk_levels w'
  ∧ current_frontier w = current_frontier w' ∧ depth w = depth w'
  ∧ (walk_cycle w' = true → walk_cycle w = true).

(** A course whose prerequisites name course 1 twice. *)
Definition course_basic : Course := sample_course 1 5 [].
Definition course_repeating : Course := sample_course 2 7 [1; 1].
Definition repeat_index : gmap Z Course :=
  build_course_index [course_basic; course_repeating].

(** The order of a ranking of tagged items [(position, item)]: a larger key
    comes first, and among equal keys the earlier position. *)
Definition ranked_before {A} (key : A → Q) (p q : nat * A) : Prop :=
  (key q.2 < key p.2)%Q ∨ ((key p.2 == key q.2)%Q ∧ (p.1 < q.1)%nat).

(** The ranking behind [recommend_by_filters]: the passing courses, tagged
    with their positions in the list, sorted. *)
Definition filter_ranking (courses : list Course) (cat diff : option string)
    (max_hours min_rating : option Q) : list (nat * Course) :=
  Py.sorted_desc (λ p : nat * Course, course_rating p.2)
    (filter (λ p : nat * Course,
               satisfies_filters cat diff max_hours min_rating p.2 = true)
            (Py.enumerate courses)).

(** The matrix the scikit-learn pipeline returns for [n] texts is [n] by
    [n]. *)
Definition square_for (courses : list Course) (sim : list (list Q)) : Prop :=
  length sim = length courses
  ∧ Forall (λ row, length row = length courses) sim.

(** A course without prerequisites, with the fields the recommenders read. *)
Definition rated_course (id : Z) (title cat diff : string) (hours rating : Q)
  : Course :=
  mkCourse id title cat "EduPath" diff hours rating [].

Definition sample_catalog : list Course :=
  [rated_course 1 "Intro to Data Science" "Data Science" "Beginner" 10 (9 # 2);
   rated_course 2 "Machine Learning" "Data Science" "Advanced" 40 (19 # 4);
   rated_course 3 "Web Basics" "Web Development" "Beginner" 8 4;
   rated_course 4 "Data Engineering" "data science" "Intermediate" 20 (9 # 2)].

(** A similarity matrix for [sample_catalog]. *)
Definition sample_similarity : list (list Q) :=
  [[1; 1 # 2; 0; 1 # 2];
   [1 # 2; 1; 0; 1 # 4];
   [0; 0; 1; 0];
   [1 # 2; 1 # 4; 0; 1]]%Q.

(** A pipeline that returns this matrix. *)
Definition sample_pipeline (texts : list string) : option (list (list Q)) :=
  Some sample_similarity.





(** ** Further notions: the catalog lookups *)

(** The list is sorted by id, repeated ids allowed: what
    [sort_values('course_id')] establishes on any table. *)
Definition weakly_sorted_by_id (courses : list Course) : Prop :=
  Sorted Z.le (course_id <$> courses).

(** A list that is not sorted. *)
Definition sample_shuffled : list Course :=
  [sample_course 9 6 [7]; sample_course 3 12 [1]; sample_course 4 8 [1; 3];
   sample_course 1 10 []; sample_course 7 5 []].

(** A sorted list in which id 3 occurs twice. *)
Definition sample_weakly_sorted : list Course :=
  [sample_course 1 10 []; sample_course 3 12 [1]; sample_course 3 8 [];
   sample_course 7 5 []].

(** ** Further notions: the learning path *)

(** Every course is filed under its own id, as [build_course_index] files
    them. *)
Definition key_consistent (courses_index : gmap Z Course) : Prop :=
  map_Forall (λ id c, course_id c = id) courses_index.

(** What [seen_flat] is to [flat_path]: the ids of the path, which are
    distinct. *)
Definition flat_inv (acc : list Course * gset Z) : Prop :=
  NoDup (course_id <$> acc.1) ∧ ∀ id, id ∈ acc.2 ↔ id ∈ course_id <$> acc.1.

(** Courses with a diamond of prerequisites and a dangling id: 4 requires 2
    and 3, both require 1, and 3 also requires the unknown 8. *)
Definition diamond_courses : list Course :=
  [sample_course 1 5 []; sample_course 2 7 [1]; sample_course 3 7 [1; 8];
   sample_course 4 1 [2; 3; 2; 9]].

Definition diamond_index : gmap Z Course := build_course_index diamond_courses.

(** ** Further notions: the recommenders *)

(** The score ranking of a row of the similarity matrix: the key of an
    entry [(position, score)] is its score. *)
Definition score : Q → Q := λ q, q.

(** ** engine/binary_search.py: the title search *)

Module PyText.

(** [c.isspace()] on the ASCII range: tab to carriage return, the four
    separators 28 to 31, and the space. *)
Definition is_space (c : ascii) : bool :=
  let n := nat_of_ascii c in
  (((9 <=? n) && (n <=? 13)) || ((28 <=? n) && (n <=? 32)))%nat.

(** [s.lstrip()] *)
Fixpoint lstrip (s : string) : string :=
  match s with
  | EmptyString => EmptyString
  | String c s' => if is_space c then lstrip s' else s
  end.

(** [s.rstrip()] *)
Fixpoint rstrip (s : string) : string :=
  match s with
  | EmptyString => EmptyString
  | String c s' =>
      match rstrip s' with
      | EmptyString => if is_space c then EmptyString else String c EmptyString
      | String c' r => String c (String c' r)
      end
  end.

(** [s.strip()] *)
Definition strip (s : string) : string := rstrip (lstrip s).

End PyText.

(** [search_by_title]: the courses whose lowercased title contains the
    keyword, lowercased and stripped. *)
Definition search_by_title (courses_list : list Course) (keyword : string)
  : list Course :=
  let keyword_lower := PyText.strip (Py.lower keyword) in
  filter (λ c, Py.contains (Py.lower (course_title c)) keyword_lower = true)
         courses_list.

(** ** routes/search.py *)

(** The answers of [/api/search]: 200 with one course, 200 with a list of
    courses, 404, 400, and 500 when the handler raises. *)
Inductive search_response : Type :=
  | SearchCourse (data : Course)
  | SearchCourses (data : list Course)
  | SearchNotFound
  | SearchBadRequest
  | SearchError.

(** [search]: [course_id] and [title] are the two query arguments, [None]
    when absent (or, for [course_id], not an integer).  A course dict is
    never empty, so [if result] tests for [None]; [if title] tests for a
    non-empty string. *)
Definition search (courses_list : list Course) (course_id : option Z)
    (title : option string) : search_response :=
  match course_id with
  | Some id =>
      match binary_search courses_list id with
      | Return (Some result) => SearchCourse result
      | Return None => SearchNotFound
      | _ => SearchError
      end
  | None =>
      match Py.truthy title with
      | Some t => SearchCourses (search_by_title courses_list t)
      | None => SearchBadRequest
      end
  end.

(** Courses with titles. *)
Definition titled_catalog : list Course :=
  [rated_course 1 "Python Basics" "Programming" "Beginner" 10 4;
   rated_course 2 "Advanced PYTHON" "Programming" "Advanced" 30 (9 # 2);
   rated_course 3 "Cloud Computing" "Cloud" "Intermediate" 20 (7 # 2)].

(** ** routes/recommend.py *)

(** The items of the [CAREER_PATHS] literal, in order. *)
Definition CAREER_PATHS_items : list (string * list string) :=
  [("Data Scientist", ["Data Science"; "AI"; "Programming"; "Mathematics"]);
   ("Full Stack Developer", ["Web Dev"; "Programming"; "Database"; "Cloud"]);
   ("AI Engineer", ["AI"; "Programming"; "Mathematics"; "Computer Sci"]);
   ("Cloud Engineer", ["Cloud"; "DevOps"; "Networking"; "Programming"]);
   ("Cybersecurity Analyst", ["Cybersecurity"; "Networking"; "Programming"])
  ]%string.

Definition CAREER_PATHS : gmap string (list string) :=
  list_to_map CAREER_PATHS_items.

(** The answers of [/api/recommend/career]: 400 with the goals on offer, or
    200 with the goal and its roadmap. *)
Inductive career_response : Type :=
  | CareerUnknown (available : list string)
  | CareerRoadmap (career_goal : string) (data : gmap string (list Course)).

(** The entry of one category in the roadmap: the five best rated courses
    whose category contains its name. *)
Definition category_top_five (courses_list : list Course) (cat : string)
  : list Course :=
  let matching :=
    filter (λ c, category_matches cat c = true) courses_list in
  let matching_sorted := Py.sorted_desc course_rating matching in
  Py.slice_to matching_sorted 5.

(** [career_recommend]; [career_goal] is the string sent, [""] when none
    is. *)
Definition career_recommend (courses_list : list Course) (career_goal : string)
  : career_response :=
  match CAREER_PATHS !! career_goal with
  | None | Some [] => CareerUnknown (CAREER_PATHS_items.*1)
  | Some categories =>
      CareerRoadmap career_goal
        (foldl (λ roadmap cat,
                  <[cat := category_top_five courses_list cat]> roadmap)
               ∅ categories)
  end.

(** The data of a skill-gap answer.  [completed_course_ids] is sent as
    [list(completed_prereqs)], a list in no specified order, and is kept
    here as the set; [progress_percent], a rounded float, is not part of the
    record. *)
Record skill_gap := mkSkillGap {
  gap_target : Course;
  missing_courses : list Course;
  completed_course_ids : gset Z;
  next_recommended : list Course;
  total_missing : nat;
  total_required : nat
}.

(** The answers of [/api/skill-gap]: 400, 404, or 200 with the data. *)
Inductive skill_gap_response : Type :=
  | SkillGapRequired
  | SkillGapNotFound
  | SkillGapData (data : skill_gap).

(** [skill_gap_analysis]; [target_course_id] is [None] when the request
    has none, and [if not target_id] also rejects 0. *)
Definition skill_gap_analysis (course_index : gmap Z Course)
    (completed_ids : list Z) (target_course_id : option Z)
  : skill_gap_response :=
  let completed : gset Z := list_to_set completed_ids in
  match target_course_id with
  | None | Some 0 => SkillGapRequired
  | Some target_id =>
      match get_learning_path target_id course_index default_max_depth with
      | None => SkillGapNotFound
      | Some path =>
          let all_prereqs : gset Z :=
            list_to_set (course_id <$> concat (levels path)) in
          let missing := all_prereqs ∖ completed in
          let completed_prereqs := all_prereqs ∩ completed in
          let missing_list :=
            filter (λ c, course_id c ∈ missing) (concat (levels path)) in
          SkillGapData
            (mkSkillGap (target path) missing_list completed_prereqs
                        (Py.slice_to missing_list 3)
                        (size missing) (size all_prereqs))
      end
  end.

(** ** routes/chat.py *)



(** Completed course ids, one of them unknown to the catalog. *)
Definition gap_completed : list Z := [1; 3; 42].

(** ** mock/edupath_engine.py: data tidying *)

(** [list.sort(key=key)] with integer keys: ascending and stable, computed
    by insertion from the right; an element moves past those to its right
    that have a strictly smaller key. *)
Module PySort.
Section Sort.
Context {A : Type} (key : A → Z).

Fixpoint insert_asc (x : A) (l : list A) : list A :=
  match l with
  | [] => [x]
  | y :: l' =>
      if key x <=? key y then x :: y :: l'
      else y :: insert_asc x l'
  end.

Fixpoint sorted_asc (l : list A) : list A :=
  match l with
  | [] => []
  | x :: l' => insert_asc x (sorted_asc l')
  end.
End Sort.
End PySort.

(** The numbers of the tidying report that [load_and_tidy] prints. *)
Record tidy_report := mkReport {
  total_loaded : nat;
  duplicates_removed : nat;
  missing_fields_removed : nat;
  broken_links : nat
}.

(** A row has a title and a category that are not blank. *)
Definition has_title_and_category (row : Course) : bool :=
  negb (String.eqb (PyText.strip (course_title row)) "")
  && negb (String.eqb (PyText.strip (category row)) "").

(** The variables of the reading loop. *)
Record tidy_state := mkTidy {
  tidy_raw : list Course;
  tidy_seen_ids : gset Z;
  tidy_duplicates : nat;
  tidy_missing : nat
}.

(** One row of the reading loop.  A row is a [Course] whose columns have
    been converted ([int], [json.loads], [float]); a repeated id is dropped
    before the row is looked at, then a row with a blank title or category,
    and only a row that is kept marks its id as seen. *)
Definition tidy_row (st : tidy_state) (row : Course) : tidy_state :=
  let cid := course_id row in
  if decide (cid ∈ tidy_seen_ids st) then
    mkTidy (tidy_raw st) (tidy_seen_ids st) (S (tidy_duplicates st))
           (tidy_missing st)
  else if has_title_and_category row then
    mkTidy (tidy_raw st ++ [row]) (tidy_seen_ids st ∪ {[cid]})
           (tidy_duplicates st) (tidy_missing st)
  else
    mkTidy (tidy_raw st) (tidy_seen_ids st) (tidy_duplicates st)
           (S (tidy_missing st)).

(** [r["prerequisite_ids"] = [p for p in ... if p in valid_ids]] *)
Definition drop_broken_links (valid_ids : gset Z) (r : Course) : Course :=
  mkCourse (course_id r) (course_title r) (category r)
           (course_organization r) (course_difficulty r) (est_hours r)
           (course_rating r)
           (filter (λ p, p ∈ valid_ids) (prerequisite_ids r)).

(** [load_and_tidy] on the rows of the file: the sorted list it returns
    and the report it prints. *)
Definition load_and_tidy (rows : list Course) : list Course * tidy_report :=
  let st := foldl tidy_row (mkTidy [] ∅ 0 0) rows in
  let raw := tidy_raw st in
  let valid_ids : gset Z := list_to_set (course_id <$> raw) in
  let broken :=
    foldl (λ n r, (n + (length (prerequisite_ids r)
                        - length (prerequisite_ids
                                    (drop_broken_links valid_ids r))))%nat)
          0%nat raw in
  let raw := drop_broken_links valid_ids <$> raw in
  let raw := PySort.sorted_asc course_id raw in
  (raw, mkReport (length raw) (tidy_duplicates st) (tidy_missing st) broken).

(** What the reading loop keeps true. *)
Definition tidy_inv (rows : list Course) (st : tidy_state) : Prop :=
  NoDup (course_id <$> tidy_raw st)
  ∧ (∀ id, id ∈ tidy_seen_ids st ↔ id ∈ course_id <$> tidy_raw st)
  ∧ Forall (λ r, has_title_and_category r = true) (tidy_raw st)
  ∧ tidy_raw st `sublist_of` rows
  ∧ (∀ r, r ∈ rows → has_title_and_category r = true →
          course_id r ∈ tidy_seen_ids st)
  ∧ (length (tidy_raw st) + tidy_duplicates st + tidy_missing st
     = length rows)%nat.

(** Rows as a file may hold them: out of order, id 2 twice, a blank
    title, and links to ids that are not there. *)
Definition untidy_rows : list Course :=
  [rated_course 5 "Databases" "Database" "Beginner" 12 4;
   mkCourse 2 "Python" "Programming" "EduPath" "Beginner" 10 4 [5; 7];
   mkCourse 2 "Python again" "Programming" "EduPath" "Beginner" 10 4 [];
   mkCourse 3 "   " "Programming" "EduPath" "Beginner" 10 4 [2];
   mkCourse 1 "Algorithms" "Computer Sci" "EduPath" "Advanced" 30 5 [2; 3]].

(** ** mock/edupath_engine.py: the recursive learning path *)

Module Mock.

(** One turn of [for prereq_id in course["prerequisite_ids"]]: the
    recursive call extends [path] and hands on the shared [visited] set,
    which it has updated in place. *)
Definition extend_path (recurse : Z → gset Z → list Course * gset Z)
    (acc : list Course * gset Z) (prereq_id : Z) : list Course * gset Z :=
  let r := recurse prereq_id acc.2 in
  (acc.1 ++ r.1, r.2).

(** The recursive [get_learning_path], with the set [visited] threaded
    through the calls: the result is the path and the set as the call leaves
    it.  The recursion is as deep as [depth] can climb before it exceeds
    [max_depth]; [fuel] bounds that depth. *)
Fixpoint visit_path (fuel : nat) (index : gmap Z Course)
    (max_depth course_id : Z) (visited : gset Z) (depth : Z)
  : list Course * gset Z :=
  match index !! course_id with
  | None => ([], visited)
  | Some course =>
      if decide (course_id ∈ visited) then ([], visited)
      else if depth >? max_depth then ([], visited)
      else
        match fuel with
        | O => ([], visited)
        | S fuel' =>
            let r :=
              foldl (extend_path
                       (λ prereq_id vis,
                          visit_path fuel' index max_depth prereq_id vis
                                     (depth + 1)))
                    ([], visited ∪ {[course_id]})
                    (prerequisite_ids course) in
            (r.1 ++ [course], r.2)
        end
  end.

(** [get_learning_path(course_id, index)], with [visited=None], [depth=0]. *)
Definition get_learning_path (course_id : Z) (index : gmap Z Course)
    (max_depth : Z) : list Course :=
  (visit_path (Z.to_nat (max_depth + 1)) index max_depth course_id ∅ 0).1.

End Mock.

(** What a call of the recursive path leaves behind, from [visited]: the
    keys [ks] it has entered, in the order of the courses it returns, each
    one new, each one the key of the course at its position. *)
Definition path_keys (index : gmap Z Course) (visited : gset Z)
    (ks : list Z) (r : list Course * gset Z) : Prop :=
  Forall2 (λ k c, index !! k = Some c) ks r.1
  ∧ NoDup ks
  ∧ (∀ k, k ∈ ks → k ∉ visited)
  ∧ r.2 = visited ∪ list_to_set ks.

(** A catalog without circular prerequisites, by a measure [rank] that
    every known prerequisite of a course lowers. *)
Definition acyclic (index : gmap Z Course) (rank : Z → nat) : Prop :=
  map_Forall (λ k c, Forall (λ p, is_Some (index !! p) → (rank p < rank k)%nat)
                            (prerequisite_ids c)) index.

(** The keys of a call in prerequisite-first order: every known
    prerequisite of a course entered was visited before the call or is
    entered earlier in it. *)
Definition keys_ordered (index : gmap Z Course) (rank : Z → nat)
    (visited : gset Z) (bound : nat) (ks : list Z) : Prop :=
  (∀ k, k ∈ ks → (rank k < bound)%nat)
  ∧ (∀ i k c p, ks !! i = Some k → index !! k = Some c →
                p ∈ prerequisite_ids c → is_Some (index !! p) →
                p ∈ visited ∨ ∃ j, (j < i)%nat ∧ ks !! j = Some p).

(** The measure on [diamond_index]: ids grow along prerequisites. *)
Definition diamond_rank (id : Z) : nat := Z.to_nat id.

(** A path in prerequisite-first order: every known prerequisite of a
    course of the path stands earlier in the path. *)
Definition prerequisites_first (index : gmap Z Course)
    (path : list Course) : Prop :=
  ∀ i c p cp, path !! i = Some c → p ∈ prerequisite_ids c →
              index !! p = Some cp →
              ∃ j, (j < i)%nat ∧ path !! j = Some cp.

(** * Properties of the catalog lookups *)

Section Index.
Implicit Types (courses : list Course) (c : Course) (id : Z).

Lemma build_course_index_snoc courses c :
  build_course_index (courses ++ [c])
  = <[course_id c := c]> (build_course_index courses).
Proof. unfold build_course_index. by rewrite foldl_app. Qed.

Lemma build_course_index_absent courses id :
  (∀ c, c ∈ courses → course_id c ≠ id) →
  build_course_index courses !! id = None.
Proof.
  induction courses as [|c courses IH] using rev_ind; intros Hno.
  - apply lookup_empty.
  - rewrite build_course_index_snoc, lookup_insert_ne.
    + apply IH. intros c' Hc'. apply Hno. set_solver.
    + apply Hno. set_solver.
Qed.

Lemma build_course_index_present courses c :
  NoDup (course_id <$> courses) → c ∈ courses →
  build_course_index courses !! course_id c = Some c.
Proof.
  induction courses as [|c' courses IH] using rev_ind; intros Hnd Hin.
  - by apply elem_of_nil in Hin.
  - rewrite build_course_index_snoc.
    rewrite fmap_app, NoDup_app in Hnd. destruct Hnd as (Hnd & Hfresh & _).
    apply elem_of_app in Hin as [Hin | Hin].
    + rewrite lookup_insert_ne; [by apply IH|].
      intros Heq. apply (Hfresh (course_id c)).
      * apply list_elem_of_fmap. eauto.
      * rewrite <- Heq. set_solver.
    + apply list_elem_of_singleton in Hin as ->. apply lookup_insert_eq.
Qed.

Lemma sorted_by_id_lookup courses (i j : nat) ci cj :
  sorted_by_id courses →
  courses !! i = Some ci → courses !! j = Some cj → (i < j)%nat →
  course_id ci < course_id cj.
Proof.
  unfold sorted_by_id. intros Hs%Sorted_StronglySorted; [|apply _].
  revert i j. induction courses as [|c courses IH]; intros i j Hi Hj Hlt.
  - by rewrite lookup_nil in Hi.
  - apply StronglySorted_inv in Hs as [Hs Hall].
    destruct j as [|j]; [lia|]. destruct i as [|i]; simpl in *.
    + injection Hi as ->. rewrite Forall_forall in Hall. apply Hall.
      apply list_elem_of_fmap. exists cj. split; [done|].
      by apply list_elem_of_lookup_2 with j.
    + apply (IH Hs i j); [done..|lia].
Qed.

Lemma sorted_by_id_NoDup courses :
  sorted_by_id courses → NoDup (course_id <$> courses).
Proof.
  intros Hs. apply NoDup_alt. intros i j id Hi Hj.
  apply list_lookup_fmap_Some in Hi as (ci & -> & Hi).
  apply list_lookup_fmap_Some in Hj as (cj & Heq & Hj).
  destruct (Nat.lt_total i j) as [Hlt | [-> | Hlt]]; [|done|].
  - pose proof (sorted_by_id_lookup _ _ _ _ _ Hs Hi Hj Hlt). lia.
  - pose proof (sorted_by_id_lookup _ _ _ _ _ Hs Hj Hi Hlt). lia.
Qed.
End Index.

(** After [funelim], drop the equations between inspected values. *)
Ltac clear_inspected :=
  repeat match goal with
         | H : sigmaI _ _ _ = sigmaI _ _ _ |- _ => clear H
         end.

Section BinarySearch.
Implicit Types (courses : list Course) (c : Course).

Lemma py_index_in_range {A} (l : list A) (i : Z) :
  0 ≤ i < Z.of_nat (length l) → Py.index l i = l !! Z.to_nat i.
Proof. intros [? ?]. unfold Py.index. by rewrite decide_True. Qed.

Lemma py_index_is_Some {A} (l : list A) (i : Z) :
  0 ≤ i < Z.of_nat (length l) → is_Some (Py.index l i).
Proof.
  intros Hi. rewrite py_index_in_range by done.
  apply lookup_lt_is_Some. lia.
Qed.

Lemma mid_between (lo hi : Z) :
  lo ≤ hi → lo ≤ (lo + hi) `div` 2 ≤ hi.
Proof.
  intros Hle.
  pose proof (Z.div_mod (lo + hi) 2 ltac:(lia)).
  pose proof (Z.mod_pos_bound (lo + hi) 2 ltac:(lia)). lia.
Qed.

(** Between bounds that lie inside the list, the loop reads only indices
    between those bounds and ends by returning. *)
Lemma bs_loop_in_bounds courses target_id lo hi :
  0 ≤ lo → hi < Z.of_nat (length courses) →
  Forall (λ mid, lo ≤ mid ≤ hi) (bs_loop courses target_id lo hi).2
  ∧ ∃ r, (bs_loop courses target_id lo hi).1 = Return r.
Proof.
  funelim (bs_loop courses target_id lo hi); intros Hlo Hhi; simpl.
  all: clear_inspected.
  all: try pose proof (mid_between _ _ (proj1 (Z.leb_le _ _) Hle)).
  - split; [constructor | eauto].
  - rewrite py_index_in_range in e by lia.
    apply lookup_ge_None_1 in e. lia.
  - split; [repeat constructor; lia | eauto].
  - destruct H as [Hall [r Hr]]; [lia..|]. split; [|eauto].
    constructor; [lia|]. eapply Forall_impl; [exact Hall|]. simpl. lia.
  - destruct H as [Hall [r Hr]]; [lia..|]. split; [|eauto].
    constructor; [lia|]. eapply Forall_impl; [exact Hall|]. simpl. lia.
Qed.

(** On a list sorted strictly by id, a loop whose bounds still enclose
    every position that can hold [target_id] returns the index entry. *)
Lemma bs_loop_correct courses target_id lo hi :
  sorted_by_id courses →
  0 ≤ lo → hi < Z.of_nat (length courses) →
  (∀ (i : nat) c, courses !! i = Some c → course_id c = target_id →
                  lo ≤ Z.of_nat i ≤ hi) →
  (bs_loop courses target_id lo hi).1
  = Return (build_course_index courses !! target_id).
Proof.
  intros Hsorted.
  funelim (bs_loop courses target_id lo hi); intros Hlo Hhi Hwin; simpl.
  all: clear_inspected.
  all: try pose proof (mid_between _ _ (proj1 (Z.leb_le _ _) Hle)) as Hmid.
  all: try (rewrite py_index_in_range in e by lia).
  - f_equal. symmetry. apply build_course_index_absent.
    intros c [i Hi]%list_elem_of_lookup_1 Hid.
    specialize (Hwin i c Hi Hid). lia.
  - apply lookup_ge_None_1 in e. lia.
  - f_equal. symmetry. apply Z.eqb_eq in e0 as <-.
    apply build_course_index_present.
    + by apply sorted_by_id_NoDup.
    + by eapply list_elem_of_lookup_2.
  - apply H; [done|lia..|]. intros i ci Hi Hid.
    apply Z.eqb_neq in e0. apply Z.ltb_lt in e1.
    specialize (Hwin i ci Hi Hid).
    destruct (decide (Z.to_nat ((lo + hi) `div` 2) < i)%nat); [lia|].
    destruct (decide (i = Z.to_nat ((lo + hi) `div` 2))) as [->|].
    + congruence.
    + pose proof (sorted_by_id_lookup _ i _ ci c Hsorted Hi e ltac:(lia)).
      lia.
  - apply H; [done|lia..|]. intros i ci Hi Hid.
    apply Z.eqb_neq in e0. apply Z.ltb_ge in e1.
    specialize (Hwin i ci Hi Hid).
    destruct (decide (i < Z.to_nat ((lo + hi) `div` 2))%nat); [lia|].
    destruct (decide (i = Z.to_nat ((lo + hi) `div` 2))) as [->|].
    + congruence.
    + pose proof (sorted_by_id_lookup _ _ i c ci Hsorted e Hi ltac:(lia)).
      lia.
Qed.
End BinarySearch.

(** ** Claims about the catalog lookups *)

(** Claim C10.  For every list of course records, sorted or not, empty or
    not, and every target id, [binary_search] comes to an end by returning
    (the function is defined by well-founded recursion on [right - left + 1]
    and never raises [IndexError]), and every index [mid] it reads satisfies
    [0 <= mid < len(courses_list)]. *)
Theorem binary_search_reads_in_bounds :
  ∀ (courses : list Course) (target_id : Z),
    (∃ r, binary_search courses target_id = Return r)
    ∧ Forall (λ mid, 0 ≤ mid < Z.of_nat (length courses))
             (binary_search_mids courses target_id).
Proof.
  intros courses target_id.
  destruct (bs_loop_in_bounds courses target_id 0
              (Z.of_nat (length courses) - 1)) as [Hmids Hret]; [lia..|].
  split; [exact Hret|].
  eapply Forall_impl; [exact Hmids|]. simpl. lia.
Qed.

(** What the index holds on a list without repeated ids: the course of the
    list that carries the id, if there is one. *)
Lemma index_lookup_unique courses target_id :
  NoDup (course_id <$> courses) →
  match build_course_index courses !! target_id with
  | Some c => c ∈ courses ∧ course_id c = target_id
  | None => ∀ c, c ∈ courses → course_id c ≠ target_id
  end.
Proof.
  intros Hnd.
  destruct (decide (Exists (λ c, course_id c = target_id) courses)) as [Hex|Hno].
  - apply Exists_exists in Hex as (c & Hin & <-).
    by rewrite build_course_index_present.
  - rewrite build_course_index_absent.
    all: intros c Hin Hid; apply Hno, Exists_exists; eauto.
Qed.

(** Claim C3.  On a course list sorted strictly ascending by [course_id]
    (hence without repeated ids), [binary_search] and the lookup in the
    index that [build_course_index] makes of the same list give the same
    answer for every id: the course of the list with that id when the id is
    present, [None] from both when it is absent. *)
Theorem binary_search_agrees_with_index :
  ∀ (courses : list Course) (target_id : Z),
    sorted_by_id courses →
    binary_search courses target_id
    = Return (build_course_index courses !! target_id)
    ∧ match build_course_index courses !! target_id with
      | Some c => c ∈ courses ∧ course_id c = target_id
      | None => ∀ c, c ∈ courses → course_id c ≠ target_id
      end.
Proof.
  intros courses target_id Hsorted. split.
  - apply bs_loop_correct; [done|lia..|].
    intros i c Hi _. apply lookup_lt_Some in Hi. lia.
  - by apply index_lookup_unique, sorted_by_id_NoDup.
Qed.

(** The agreement, on [sample_sorted] and id 7. *)
Lemma binary_search_agrees_with_index_witness :
  binary_search sample_sorted 7
  = Return (build_course_index sample_sorted !! 7)
  ∧ match build_course_index sample_sorted !! 7 with
    | Some c => c ∈ sample_sorted ∧ course_id c = 7
    | None => ∀ c, c ∈ sample_sorted → course_id c ≠ 7
    end.
Proof.
  apply (binary_search_agrees_with_index sample_sorted 7).
  unfold sorted_by_id. simpl. repeat constructor.
Defined.

(** ** Claims about catalog construction *)

(** Claim C2, as stated, fails: a list in which two courses share id 1 is
    accepted, and the index keeps the later of the two. *)
Lemma build_course_index_accepts_repeated_id :
  has_duplicate_id sample_repeated
  ∧ build_course_index_run sample_repeated ≠ InvalidInput
  ∧ build_course_index sample_repeated !! 1 = Some (sample_course 1 12 [2]).
Proof.
  split; [|split].
  - exists 0%nat, 2%nat, (sample_course 1 10 []), (sample_course 1 12 [2]).
    by repeat split.
  - discriminate.
  - by vm_compute.
Qed.

Lemma filter_id_snoc (courses : list Course) (c : Course) (id : Z) :
  filter (λ c', course_id c' = id) (courses ++ [c])
  = filter (λ c', course_id c' = id) courses
    ++ (if decide (course_id c = id) then [c] else []).
Proof.
  rewrite filter_app. f_equal.
Qed.

(** Claim C2, amended.  [build_course_index] never fails: for every course
    list it returns an index, and the index maps each id to the last course
    of the list that carries it (so of two courses sharing an id the later
    one replaces the earlier one), and to nothing when no course carries
    it. *)
Theorem build_course_index_last_wins :
  ∀ (courses : list Course),
    ∃ index, build_course_index_run courses = Return index
      ∧ ∀ id, index !! id = last (filter (λ c, course_id c = id) courses).
Proof.
  intros courses. exists (build_course_index courses). split; [done|].
  intros id. induction courses as [|c courses IH] using rev_ind.
  - apply lookup_empty.
  - rewrite build_course_index_snoc, filter_id_snoc.
    destruct (decide (course_id c = id)) as [<-|Hne].
    + by rewrite lookup_insert_eq, last_snoc.
    + by rewrite lookup_insert_ne, app_nil_r.
Qed.

(** * Properties of the prerequisite resolver *)

Section Walk.
Context (courses_index : gmap Z Course) (max_depth : Z).
Implicit Types (w : walk) (s : scan).

Lemma walk_loop_step w :
  walk_loop courses_index max_depth w
  = if walk_continues max_depth w
    then walk_loop courses_index max_depth (walk_level courses_index w)
    else w.
Proof.
  funelim (walk_loop courses_index max_depth w); clear_inspected.
  - by rewrite Hgo.
  - by rewrite e.
Qed.

(** Induction along the turns of the [while] loop. *)
Lemma walk_loop_ind (P : walk → walk → Prop) :
  (∀ w, walk_continues max_depth w = false → P w w) →
  (∀ w r, walk_continues max_depth w = true →
          P (walk_level courses_index w) r → P w r) →
  ∀ w, P w (walk_loop courses_index max_depth w).
Proof.
  intros Hstop Hstep w.
  funelim (walk_loop courses_index max_depth w); clear_inspected.
  - apply Hstep; [done|]. by apply H.
  - by apply Hstop.
Qed.

(** The loop stops because its condition fails. *)
Lemma walk_loop_stops w :
  walk_continues max_depth (walk_loop courses_index max_depth w) = false.
Proof. by apply (walk_loop_ind (λ _ r, walk_continues max_depth r = false)). Qed.

Lemma walk_level_levels w :
  (length (walk_levels (walk_level courses_index w))
   ≤ S (length (walk_levels w)))%nat.
Proof.
  unfold walk_level. simpl. destruct (level_courses _); simpl; [lia|].
  rewrite length_app. simpl. lia.
Qed.

Lemma walk_level_depth w :
  depth (walk_level courses_index w) = depth w + 1.
Proof. reflexivity. Qed.

(** Each turn adds at most one level, and there are at most
    [max_depth - depth] turns. *)
Lemma walk_loop_levels w :
  (length (walk_levels (walk_loop courses_index max_depth w))
   ≤ length (walk_levels w) + Z.to_nat (max_depth - depth w))%nat.
Proof.
  apply (walk_loop_ind (λ w r,
    (length (walk_levels r)
     ≤ length (walk_levels w) + Z.to_nat (max_depth - depth w))%nat)).
  - intros w' _. lia.
  - intros w' r Hgo IH. pose proof (walk_level_levels w') as Hlen.
    unfold walk_continues in Hgo. destruct (current_frontier w'); [done|].
    apply Z.ltb_lt in Hgo. rewrite walk_level_depth in IH. lia.
Qed.
End Walk.

(** ** Claims about the learning path *)

(** Claim C4.  For every catalog index, whatever its prerequisite graph
    (cyclic, or a chain longer than the cap), and every target id,
    [get_learning_path] with [max_depth = 20] is defined and yields either
    [None], exactly when the target is unknown, or a path for the target
    whose [levels] list has at most 20 entries.  The walk is a total
    function, by recursion on [max_depth - depth], and none of its steps
    can raise. *)
Theorem get_learning_path_depth_cap :
  ∀ (courses_index : gmap Z Course) (course_id : Z),
    match courses_index !! course_id,
          get_learning_path course_id courses_index 20 with
    | Some tgt, Some path => target path = tgt ∧ (length (levels path) ≤ 20)%nat
    | None, None => True
    | _, _ => False
    end.
Proof.
  intros courses_index id. unfold get_learning_path.
  destruct (courses_index !! id) as [tgt|]; [|done]. simpl. split; [done|].
  apply (walk_loop_levels courses_index 20
           (mkWalk ∅ [] (prerequisite_ids tgt) 0 false)).
Qed.

(** On a chain of depth 25 the cap of 20 cuts the walk at 20 levels, and
    nothing is flagged. *)
Example get_learning_path_chain_25 :
  (λ path, (length (levels path), length (flat_path path),
            total_hours path, cycle_detected path))
    <$> get_learning_path 1 (build_course_index (chain 26)) 20
  = Some (20%nat, 20%nat, 20, false).
Proof. by vm_compute. Qed.

(** Claim C6.  For every catalog index, every cap and every target in the
    index whose [prerequisite_ids] is empty, [get_learning_path] returns a
    path with no levels, an empty [flat_path] and [total_hours = 0]. *)
Theorem get_learning_path_no_prerequisites :
  ∀ (courses_index : gmap Z Course) (max_depth : Z) (id : Z) (c : Course),
    courses_index !! id = Some c →
    prerequisite_ids c = [] →
    get_learning_path id courses_index max_depth
    = Some (mkLearningPath c [] [] 0 false).
Proof.
  intros courses_index max_depth id c Hc Hnone.
  unfold get_learning_path, learning_path_from. rewrite Hc, Hnone.
  by rewrite walk_loop_step.
Qed.

(** Course 7 of [sample_sorted] has no prerequisites. *)
Lemma get_learning_path_no_prerequisites_witness :
  get_learning_path 7 (build_course_index sample_sorted) default_max_depth
  = Some (mkLearningPath (sample_course 7 5 []) [] [] 0 false).
Proof.
  apply (get_learning_path_no_prerequisites
           (build_course_index sample_sorted) default_max_depth 7
           (sample_course 7 5 [])); reflexivity.
Defined.

(** Claim C1 does not hold of the code.  On the cycle A, B, C the walk
    ends, and B and C each occur once in [flat_path]; but the target A is
    never put in [seen], so the third level visits A itself: A is listed in
    its own [flat_path], and since no id is met twice [cycle_detected]
    stays false.  This holds for either direction of the edges. *)
Theorem get_learning_path_cycle :
  get_learning_path 1 cycle_index default_max_depth
  = Some (mkLearningPath course_A
            [[course_B]; [course_C]; [course_A]]
            [course_A; course_C; course_B] 23 false)
  ∧ get_learning_path 1 cycle_index' default_max_depth
    = Some (mkLearningPath course_A'
              [[course_C']; [course_B']; [course_A']]
              [course_A'; course_B'; course_C'] 23 false).
Proof. split; by vm_compute. Qed.

(** Claim C5, as stated, fails on hours that are not whole numbers: with
    1.5 hours for each of courses 1 and 2 the levels and the flat path are
    as claimed, but [total_hours] is 2, not 3. *)
Lemma total_hours_not_plain_sum :
  ∃ path, get_learning_path 3 half_index default_max_depth = Some path
    ∧ levels path = [[half_1; half_2]]
    ∧ flat_path path = [half_1; half_2]
    ∧ total_hours path = 2
    ∧ ¬ (inject_Z (total_hours path) == est_hours half_1 + est_hours half_2)%Q.
Proof.
  eexists. split; [by vm_compute|]. repeat split. by vm_compute.
Qed.

(** Claim C5, amended.  On the catalog of exactly three courses, course 1
    without prerequisites, course 2 requiring [1] and course 3 requiring
    [1, 2], [get_learning_path] on id 3 returns the single level
    [course 1, course 2], the flat path [course 1, course 2], and as
    [total_hours] the sum of the hours of course 1 and of course 2 each
    truncated to a whole number by [int]; no cycle is reported. *)
Theorem get_learning_path_three_courses :
  ∀ (c1 c2 c3 : Course),
    course_id c1 = 1 → prerequisite_ids c1 = [] →
    course_id c2 = 2 → prerequisite_ids c2 = [1] →
    course_id c3 = 3 → prerequisite_ids c3 = [1; 2] →
    get_learning_path 3 (build_course_index [c1; c2; c3]) default_max_depth
    = Some (mkLearningPath c3 [[c1; c2]] [c1; c2]
              (Py.int (est_hours c1) + Py.int (est_hours c2)) false).
Proof.
  intros [] [] []; simpl; intros. subst. by vm_compute.
Qed.

(** The three courses of [half_index] have the shape of the example. *)
Lemma get_learning_path_three_courses_witness :
  get_learning_path 3 half_index default_max_depth
  = Some (mkLearningPath half_3 [[half_1; half_2]] [half_1; half_2]
            (Py.int (est_hours half_1) + Py.int (est_hours half_2)) false).
Proof.
  apply (get_learning_path_three_courses half_1 half_2 half_3); reflexivity.
Defined.

(** When the hours are whole numbers, nothing is lost to [int]. *)
Lemma int_whole (n : Z) : Py.int (inject_Z n) = n.
Proof. unfold Py.int. simpl. apply Z.quot_1_r. Qed.

(** ** Repeated ids in a frontier *)

Section Repeats.
Context (courses_index : gmap Z Course).
Implicit Types (s : scan) (w : walk) (met : gset Z).

Lemma scan_agree_trans s1 s2 s3 :
  scan_agree s1 s2 → scan_agree s2 s3 → scan_agree s1 s3.
Proof.
  intros (? & ? & ? & ?) (? & ? & ? & ?).
  repeat split; [congruence..|auto].
Qed.

Lemma visit_agree s s' pid :
  scan_agree s s' →
  scan_agree (visit courses_index s pid) (visit courses_index s' pid).
Proof.
  destruct s, s'. intros (? & ? & ? & ?); simpl in *; subst.
  unfold visit, scan_agree; simpl.
  case_decide; [done|]. by destruct (courses_index !! pid).
Qed.

Lemma visit_seen_mono s pid :
  scan_seen s ⊆ scan_seen (visit courses_index s pid).
Proof.
  unfold visit. case_decide; [done|].
  destruct (courses_index !! pid); simpl; set_solver.
Qed.

(** Once visited, an id is in [seen] unless the index lacks it. *)
Lemma visit_settles s pid :
  pid ∈ scan_seen (visit courses_index s pid) ∨ courses_index !! pid = None.
Proof.
  unfold visit. case_decide; [by left|].
  destruct (courses_index !! pid); simpl; [left; set_solver | by right].
Qed.

(** Visiting such an id again changes nothing but, possibly, the flag. *)
Lemma visit_again s pid :
  pid ∈ scan_seen s ∨ courses_index !! pid = None →
  scan_agree (visit courses_index s pid) s.
Proof.
  intros Hsettled. unfold visit, scan_agree.
  case_decide; [done|]. destruct Hsettled as [?| ->]; done.
Qed.

Lemma scan_agree_foldl frontier s s' :
  scan_agree s s' →
  scan_agree (foldl (visit courses_index) s frontier)
             (foldl (visit courses_index) s' frontier).
Proof.
  revert s s'. induction frontier as [|pid frontier IH]; intros s s' Hs;
    [done|]. simpl. by apply IH, visit_agree.
Qed.

(** Dropping the repeated ids of a frontier changes the scan only in its
    flag. *)
Lemma scan_agree_dedup frontier met s s' :
  scan_agree s s' →
  (∀ id, id ∈ met → id ∈ scan_seen s ∨ courses_index !! id = None) →
  scan_agree (foldl (visit courses_index) s frontier)
             (foldl (visit courses_index) s' (dedup_from met frontier)).
Proof.
  revert met s s'.
  induction frontier as [|pid frontier IH]; intros met s s' Hs Hmet; [done|].
  simpl. case_decide as Hpid.
  - apply IH.
    + eapply scan_agree_trans; [|exact Hs]. by apply visit_again, Hmet.
    + intros id [Hid | ->]%Hmet; [left|by right].
      by apply visit_seen_mono.
  - simpl. apply IH; [by apply visit_agree|].
    intros id [Hid | ->%elem_of_singleton]%elem_of_union.
    + destruct (Hmet id Hid) as [? | ->]; [left|by right].
      by apply visit_seen_mono.
    + apply visit_settles.
Qed.

Lemma walk_after_agree w w' s s' :
  walk_levels w = walk_levels w' → depth w = depth w' →
  scan_agree s s' → walk_agree (walk_after w s) (walk_after w' s').
Proof.
  intros Hlvls Hdepth (Hseen & Hlvl & Hnext & Hflag).
  unfold walk_agree, walk_after; simpl.
  by rewrite Hseen, Hlvl, Hnext, Hlvls, Hdepth.
Qed.

Lemma scan_start_agree w w' :
  walk_seen w = walk_seen w' →
  (walk_cycle w' = true → walk_cycle w = true) →
  scan_agree (scan_start w) (scan_start w').
Proof. intros Hseen Hflag. by repeat split. Qed.

Lemma walk_level_agree w w' :
  walk_agree w w' →
  walk_agree (walk_level courses_index w) (walk_level courses_index w').
Proof.
  intros (Hseen & Hlvls & Hfrontier & Hdepth & Hflag).
  unfold walk_level. rewrite Hfrontier.
  apply walk_after_agree; [done..|].
  by apply scan_agree_foldl, scan_start_agree.
Qed.

(** The first turn on a frontier with repeats, against the turn on the
    frontier without them. *)
Lemma walk_level_agree_dedup w w' :
  walk_seen w = walk_seen w' → walk_levels w = walk_levels w' →
  depth w = depth w' → (walk_cycle w' = true → walk_cycle w = true) →
  current_frontier w' = deduplicated (current_frontier w) →
  walk_agree (walk_level courses_index w) (walk_level courses_index w').
Proof.
  intros Hseen Hlvls Hdepth Hflag Hfrontier.
  unfold walk_level. rewrite Hfrontier.
  apply walk_after_agree; [done..|].
  apply scan_agree_dedup; [by apply scan_start_agree|].
  intros id []%elem_of_empty.
Qed.

Lemma walk_continues_agree max_depth w w' :
  walk_agree w w' →
  walk_continues max_depth w = walk_continues max_depth w'.
Proof.
  intros (_ & _ & Hfrontier & Hdepth & _).
  unfold walk_continues. by rewrite Hfrontier, Hdepth.
Qed.

(** The flag is carried along and never read: walks that agree up to
    the flag end in walks that agree up to the flag. *)
Lemma walk_loop_agree max_depth w :
  ∀ w', walk_agree w w' →
        walk_agree (walk_loop courses_index max_depth w)
                   (walk_loop courses_index max_depth w').
Proof.
  apply (walk_loop_ind courses_index max_depth (λ w r,
    ∀ w', walk_agree w w' →
          walk_agree r (walk_loop courses_index max_depth w'))).
  - intros w0 Hstop w' Hagree. rewrite (walk_loop_step _ _ w').
    by rewrite <- (walk_continues_agree _ _ _ Hagree), Hstop.
  - intros w0 r Hgo IH w' Hagree. rewrite (walk_loop_step _ _ w').
    rewrite <- (walk_continues_agree _ _ _ Hagree), Hgo.
    by apply IH, walk_level_agree.
Qed.

Lemma deduplicated_nil_iff (ids : list Z) :
  deduplicated ids = [] ↔ ids = [].
Proof.
  unfold deduplicated. destruct ids as [|id ids]; [done|]. simpl.
  by rewrite decide_False by set_solver.
Qed.

(** Repeated ids in the first frontier leave the levels, the flat path
    and the hours as they are without the repeats, and can only raise
    the flag. *)
Lemma learning_path_from_dedup max_depth tgt frontier :
  let path := learning_path_from courses_index max_depth tgt frontier in
  let path' := learning_path_from courses_index max_depth tgt
                                  (deduplicated frontier) in
  levels path = levels path' ∧ flat_path path = flat_path path'
  ∧ total_hours path = total_hours path'
  ∧ (cycle_detected path' = true → cycle_detected path = true).
Proof.
  unfold learning_path_from; simpl.
  set (w := mkWalk ∅ [] frontier 0 false).
  set (w' := mkWalk ∅ [] (deduplicated frontier) 0 false).
  assert (walk_levels (walk_loop courses_index max_depth w)
          = walk_levels (walk_loop courses_index max_depth w')
          ∧ (walk_cycle (walk_loop courses_index max_depth w') = true →
             walk_cycle (walk_loop courses_index max_depth w) = true))
    as [Hlvls Hflag].
  { rewrite (walk_loop_step _ _ w), (walk_loop_step _ _ w').
    assert (walk_continues max_depth w = walk_continues max_depth w') as <-.
    { unfold walk_continues, w, w'; simpl.
      destruct frontier as [|id ids]; [done|]. unfold deduplicated; simpl.
      by rewrite decide_False by set_solver. }
    destruct (walk_continues max_depth w); [|done].
    destruct (walk_loop_agree max_depth
                (walk_level courses_index w) (walk_level courses_index w'))
      as (_ & ? & _ & _ & ?); [|done].
    by apply walk_level_agree_dedup. }
  by rewrite Hlvls.
Qed.
End Repeats.

(** ** The claim about repeated prerequisite ids *)

(** Whatever the cap and the target, the path computed from the target's
    [prerequisite_ids] as they are and the path computed from them without
    repeats have the same target, levels, flat path and hours; the former
    reports a cycle whenever the latter does. *)
Lemma get_learning_path_repeats_harmless
    (courses_index : gmap Z Course) (max_depth id : Z) :
  match get_learning_path id courses_index max_depth,
        get_learning_path_deduplicated id courses_index max_depth with
  | Some path, Some path' =>
      target path = target path' ∧ levels path = levels path'
      ∧ flat_path path = flat_path path'
      ∧ total_hours path = total_hours path'
      ∧ (cycle_detected path' = true → cycle_detected path = true)
  | None, None => True
  | _, _ => False
  end.
Proof.
  unfold get_learning_path, get_learning_path_deduplicated.
  destruct (courses_index !! id) as [tgt|]; [|done].
  split; [done|]. apply learning_path_from_dedup.
Qed.

(** Claim C9 does not hold of the code.  For a target whose prerequisites
    are [1, 1], with course 1 free of prerequisites, the second 1 is found
    in [seen] and sets [cycle_detected], although nothing here refers back
    to an ancestor; on the prerequisites without the repeat the flag stays
    false.  Levels, flat path and hours are the same in both. *)
Theorem get_learning_path_repeat_flags_cycle :
  get_learning_path 2 repeat_index default_max_depth
  = Some (mkLearningPath course_repeating [[course_basic]] [course_basic] 5
                         true)
  ∧ get_learning_path_deduplicated 2 repeat_index default_max_depth
    = Some (mkLearningPath course_repeating [[course_basic]] [course_basic] 5
                           false).
Proof. split; by vm_compute. Qed.

(** * Properties of the descending stable sort *)

Section SortedDesc.
Context {A : Type} (key : A → Q).
Implicit Types (x : A) (l : list A).

Lemma insert_desc_Permutation x l : Py.insert_desc key x l ≡ₚ x :: l.
Proof.
  induction l as [|y l IH]; simpl; [done|].
  destruct (Qle_bool (key y) (key x)); [done|].
  rewrite IH. apply Permutation_swap.
Qed.

Lemma sorted_desc_Permutation l : Py.sorted_desc key l ≡ₚ l.
Proof.
  induction l as [|x l IH]; simpl; [done|].
  by rewrite insert_desc_Permutation, IH.
Qed.

Lemma sorted_desc_length l : length (Py.sorted_desc key l) = length l.
Proof. by rewrite sorted_desc_Permutation. Qed.

Lemma insert_desc_fmap {B} (f : B → A) (b : B) (k : list B) :
  Py.insert_desc key (f b) (f <$> k)
  = f <$> Py.insert_desc (λ b', key (f b')) b k.
Proof.
  induction k as [|b' k IH]; [done|].
  rewrite fmap_cons. cbn [Py.insert_desc].
  destruct (Qle_bool _ _); [done|]. by rewrite IH.
Qed.

(** Sorting the images is sorting by the key of the image. *)
Lemma sorted_desc_fmap {B} (f : B → A) (k : list B) :
  Py.sorted_desc key (f <$> k) = f <$> Py.sorted_desc (λ b, key (f b)) k.
Proof.
  induction k as [|b k IH]; [done|].
  rewrite fmap_cons. cbn [Py.sorted_desc]. rewrite IH.
  apply insert_desc_fmap.
Qed.
End SortedDesc.

Section Stable.
Context {A : Type} (key : A → Q).
Implicit Types (p q : nat * A) (l : list (nat * A)).

Abbreviation tagged_key := (λ p : nat * A, key p.2).

Lemma ranked_before_key p q : ranked_before key p q → (key q.2 <= key p.2)%Q.
Proof.
  intros [Hlt | [Heq _]]; [by apply Qlt_le_weak|].
  rewrite Heq. apply Qle_refl.
Qed.

(** An item whose position precedes all others goes in front of the
    items it does not rank below. *)
Lemma insert_desc_ranked p l :
  Forall (λ q, (p.1 < q.1)%nat) l →
  StronglySorted (ranked_before key) l →
  StronglySorted (ranked_before key) (Py.insert_desc tagged_key p l).
Proof.
  induction l as [|q l IH]; intros Hpos Hsorted; simpl.
  - by repeat constructor.
  - apply Forall_cons in Hpos as [Hpq Hpos].
    apply StronglySorted_inv in Hsorted as [Hsorted Hq].
    destruct (Qle_bool (key q.2) (key p.2)) eqn:Hle.
    + apply Qle_bool_iff in Hle.
      constructor; [by constructor|].
      assert (∀ r, (key r.2 <= key p.2)%Q → (p.1 < r.1)%nat →
                   ranked_before key p r) as Hrank.
      { intros r [Hlt | Heq]%Qle_lt_or_eq Hpr; [by left|right].
        split; [by symmetry|done]. }
      constructor; [by apply Hrank|].
      rewrite Forall_forall in Hq, Hpos. apply Forall_forall. intros r Hr.
      apply Hrank; [|by apply Hpos].
      eapply Qle_trans; [|exact Hle]. by apply ranked_before_key, Hq.
    + assert (key p.2 < key q.2)%Q as Hlt.
      { apply Qnot_le_lt. intros Hle'%Qle_bool_iff. congruence. }
      constructor; [by apply IH|].
      rewrite insert_desc_Permutation. constructor; [by left|done].
Qed.

(** Stability: a list whose positions ascend is sorted into the ranking
    by key, then position. *)
Lemma sorted_desc_ranked l :
  StronglySorted (λ p q, (p.1 < q.1)%nat) l →
  StronglySorted (ranked_before key) (Py.sorted_desc tagged_key l).
Proof.
  induction 1 as [|p l Hsorted IH Hpos]; simpl; [constructor|].
  apply insert_desc_ranked; [|done].
  by rewrite sorted_desc_Permutation.
Qed.
End Stable.

(** * Properties of the recommenders *)

Lemma enumerate_lookup {A} (l : list A) (i : nat) :
  Py.enumerate l !! i = (λ x, (i, x)) <$> l !! i.
Proof. apply list_lookup_imap. Qed.

Lemma enumerate_elem_of {A} (l : list A) (p : nat * A) :
  p ∈ Py.enumerate l ↔ l !! p.1 = Some p.2.
Proof.
  unfold Py.enumerate. rewrite elem_of_lookup_imap. split.
  - by intros (i & x & -> & Hx).
  - destruct p as [i x]. intros Hx. by exists i, x.
Qed.

Lemma enumerate_snd {A} (l : list A) : (Py.enumerate l).*2 = l.
Proof.
  apply list_eq. intros i. rewrite list_lookup_fmap, enumerate_lookup.
  by destruct (l !! i).
Qed.

Lemma enumerate_fst {A} (l : list A) :
  (Py.enumerate l).*1 = seq 0 (length l).
Proof.
  apply list_eq. intros i. rewrite list_lookup_fmap, enumerate_lookup.
  destruct (l !! i) eqn:Hi; simpl.
  - apply lookup_lt_Some in Hi. by rewrite lookup_seq_lt.
  - apply lookup_ge_None in Hi. by rewrite lookup_seq_ge.
Qed.

Lemma enumerate_length {A} (l : list A) : length (Py.enumerate l) = length l.
Proof. apply length_imap. Qed.

Lemma StronglySorted_sublist {A} (R : relation A) (l1 l2 : list A) :
  l1 `sublist_of` l2 → StronglySorted R l2 → StronglySorted R l1.
Proof.
  induction 1 as [|x l1 l2 Hsub IH|x l1 l2 Hsub IH]; intros Hsorted; [done|..].
  - apply StronglySorted_inv in Hsorted as [Hsorted Hx].
    constructor; [by apply IH|].
    apply Forall_forall. intros y Hy. rewrite Forall_forall in Hx.
    apply Hx. by eapply sublist_subseteq.
  - apply StronglySorted_inv in Hsorted as [Hsorted _]. by apply IH.
Qed.

Lemma StronglySorted_fmap_inv {A B} (f : A → B) (R : relation B) (l : list A) :
  StronglySorted R (f <$> l) → StronglySorted (λ x y, R (f x) (f y)) l.
Proof.
  induction l as [|x l IH]; [constructor|]. rewrite fmap_cons.
  intros [Hsorted Hx]%StronglySorted_inv.
  constructor; [by apply IH|]. rewrite Forall_fmap in Hx. exact Hx.
Qed.

Lemma seq_ascending (j n : nat) : StronglySorted lt (seq j n).
Proof.
  revert j. induction n as [|n IH]; intros j; simpl; constructor; [apply IH|].
  apply Forall_forall. intros i [? ?]%elem_of_seq. lia.
Qed.

(** The positions of [enumerate] ascend. *)
Lemma enumerate_ascending {A} (l : list A) :
  StronglySorted (λ p q : nat * A, (p.1 < q.1)%nat) (Py.enumerate l).
Proof.
  apply (StronglySorted_fmap_inv fst lt).
  rewrite enumerate_fst. apply seq_ascending.
Qed.

Lemma filter_fmap {A B} (f : A → B) (P : B → Prop) `{!∀ y, Decision (P y)}
    (l : list A) :
  filter P (f <$> l) = f <$> filter (λ x, P (f x)) l.
Proof.
  induction l as [|x l IH]; [done|].
  rewrite fmap_cons, !filter_cons, IH. by destruct (decide (P (f x))).
Qed.

Lemma filter_all {A} (P : A → Prop) `{!∀ x, Decision (P x)} (l : list A) :
  (∀ x, P x) → filter P l = l.
Proof.
  intros HP. induction l as [|x l IH]; [done|].
  by rewrite filter_cons_True, IH.
Qed.

Lemma slice_to_nonneg {A} (l : list A) (k : Z) :
  0 ≤ k → Py.slice_to l k = take (Z.to_nat k) l.
Proof. intros Hk. unfold Py.slice_to. by rewrite decide_True. Qed.

Lemma contains_empty (t : string) : Py.contains t "" = true.
Proof. by destruct t. Qed.

Lemma filter_if_from_option {A} (arg : option A) (test : A → Course → bool)
    (l : list Course) :
  filter_if arg test l
  = filter (λ c, from_option (λ a, test a c) true arg = true) l.
Proof. destruct arg; simpl; [done|]. by rewrite filter_all. Qed.

Lemma truthy_from_option (test : string → Course → bool) (arg : option string)
    (c : Course) :
  test "" c = true →
  from_option (λ a, test a c) true (Py.truthy arg)
  = from_option (λ a, test a c) true arg.
Proof. intros Hempty. by destruct arg as [[|]|]. Qed.

(** The four list comprehensions keep the courses that pass the filters. *)
Lemma filters_keep_satisfying (courses : list Course) (cat diff : option string)
    (max_hours min_rating : option Q) :
  filter_if min_rating rated_at_least
    (filter_if max_hours within_hours
       (filter_if (Py.truthy diff) difficulty_matches
          (filter_if (Py.truthy cat) category_matches courses)))
  = filter (λ c, satisfies_filters cat diff max_hours min_rating c = true)
           courses.
Proof.
  rewrite !filter_if_from_option, !list_filter_filter.
  apply list_filter_iff. intros c. unfold satisfies_filters.
  rewrite (truthy_from_option category_matches), (truthy_from_option difficulty_matches).
  - rewrite !andb_true_iff. tauto.
  - unfold difficulty_matches. apply contains_empty.
  - unfold category_matches. apply contains_empty.
Qed.

Lemma recommend_by_filters_ranking (courses : list Course)
    (cat diff : option string) (max_hours min_rating : option Q) (top_k : Z) :
  0 ≤ top_k →
  recommend_by_filters courses cat diff max_hours min_rating top_k
  = (take (Z.to_nat top_k)
          (filter_ranking courses cat diff max_hours min_rating)).*2.
Proof.
  intros Hk. unfold recommend_by_filters, filter_ranking.
  rewrite filters_keep_satisfying, slice_to_nonneg by done.
  rewrite fmap_take. f_equal.
  rewrite <- (enumerate_snd courses) at 1.
  rewrite (filter_fmap snd
    (λ c, satisfies_filters cat diff max_hours min_rating c = true)).
  apply (sorted_desc_fmap course_rating snd).
Qed.

Lemma filter_ranking_ranked (courses : list Course) (cat diff : option string)
    (max_hours min_rating : option Q) :
  StronglySorted (ranked_before course_rating)
                 (filter_ranking courses cat diff max_hours min_rating).
Proof.
  unfold filter_ranking. apply (sorted_desc_ranked course_rating).
  eapply StronglySorted_sublist; [apply sublist_filter; apply _|].
  apply enumerate_ascending.
Qed.

(** Claim C8.  For every course list, every choice of the optional filters
    and every [top_k >= 0], the courses [recommend_by_filters] returns all
    pass every supplied filter, and there are at most [top_k] of them.  They
    are the first [top_k] entries of a ranking of exactly the passing
    entries of the list, in which a higher rating comes first and, among
    equal ratings, the earlier position in the list (the order is by rating
    descending, and stable).  With no filter supplied the ranking is one of
    the whole list, so the result is its top [top_k] by rating. *)
Theorem recommend_by_filters_sorted_top_k :
  ∀ (courses : list Course) (cat diff : option string)
    (max_hours min_rating : option Q) (top_k : Z),
    0 ≤ top_k →
    let result :=
      recommend_by_filters courses cat diff max_hours min_rating top_k in
    Forall (λ c, satisfies_filters cat diff max_hours min_rating c = true)
           result
    ∧ Z.of_nat (length result) ≤ top_k
    ∧ (∃ ranking : list (nat * Course),
         ranking ≡ₚ filter (λ p : nat * Course,
                      satisfies_filters cat diff max_hours min_rating p.2 = true)
                    (Py.enumerate courses)
         ∧ StronglySorted (ranked_before course_rating) ranking
         ∧ result = (take (Z.to_nat top_k) ranking).*2)
    ∧ (cat = None → diff = None → max_hours = None → min_rating = None →
       ∃ ranking : list (nat * Course),
         ranking ≡ₚ Py.enumerate courses
         ∧ StronglySorted (ranked_before course_rating) ranking
         ∧ result = (take (Z.to_nat top_k) ranking).*2).
Proof.
  intros courses cat diff max_hours min_rating top_k Hk result.
  pose proof (recommend_by_filters_ranking courses cat diff max_hours
                min_rating top_k Hk) as Hresult.
  fold result in Hresult.
  pose proof (filter_ranking_ranked courses cat diff max_hours min_rating)
    as Hranked.
  assert (filter_ranking courses cat diff max_hours min_rating
          ≡ₚ filter (λ p : nat * Course,
                satisfies_filters cat diff max_hours min_rating p.2 = true)
              (Py.enumerate courses)) as Hperm
    by apply sorted_desc_Permutation.
  split; [|split; [|split]].
  - rewrite Hresult. apply Forall_fmap, Forall_take.
    rewrite Hperm. apply Forall_forall.
    by intros p [Hp _]%list_elem_of_filter.
  - rewrite Hresult, length_fmap, length_take. lia.
  - eauto.
  - intros -> -> -> ->. eexists. split; [|split; [exact Hranked|exact Hresult]].
    rewrite Hperm. by rewrite filter_all.
Qed.

(** ** The similarity recommender *)

Lemma index_positions_snoc (courses : list Course) (c : Course) :
  index_positions (courses ++ [c])
  = <[course_id c := length courses]> (index_positions courses).
Proof.
  unfold index_positions, Py.enumerate.
  rewrite imap_app, foldl_app. simpl. by rewrite Nat.add_0_r.
Qed.

(** The position stored for an id holds a course with that id. *)
Lemma index_positions_Some (courses : list Course) (id : Z) (idx : nat) :
  index_positions courses !! id = Some idx →
  ∃ c, courses !! idx = Some c ∧ course_id c = id.
Proof.
  induction courses as [|c courses IH] using rev_ind.
  - unfold index_positions. simpl. by rewrite lookup_empty.
  - rewrite index_positions_snoc.
    destruct (decide (course_id c = id)) as [<-|Hne].
    + rewrite lookup_insert_eq. intros [= <-]. exists c.
      split; [by apply list_lookup_middle|done].
    + rewrite lookup_insert_ne by done. intros (c' & Hc' & Hid)%IH.
      exists c'. split; [by apply lookup_app_l_Some|done].
Qed.

Lemma index_positions_None (courses : list Course) (id : Z) :
  (∀ c, c ∈ courses → course_id c ≠ id) →
  index_positions courses !! id = None.
Proof.
  induction courses as [|c courses IH] using rev_ind; intros Hno.
  - apply lookup_empty.
  - rewrite index_positions_snoc, lookup_insert_ne.
    + apply IH. intros c' Hc'. apply Hno. set_solver.
    + apply Hno. set_solver.
Qed.




(** Course 1 of [sample_catalog]: the two most similar other courses. *)
Example get_similar_courses_sample :
  get_similar_courses (init_recommender sample_pipeline sample_catalog) 1 2
  = Return [rated_course 2 "Machine Learning" "Data Science" "Advanced" 40
                         (19 # 4);
            rated_course 4 "Data Engineering" "data science" "Intermediate" 20
                         (9 # 2)].
Proof. by vm_compute. Qed.

(** Courses 1 and 4 pass and are rated alike: they keep their order. *)
Example recommend_by_filters_sample :
  recommend_by_filters sample_catalog (Some "DATA") None (Some 25%Q) None 2
  = [rated_course 1 "Intro to Data Science" "Data Science" "Beginner" 10
                  (9 # 2);
     rated_course 4 "Data Engineering" "data science" "Intermediate" 20
                  (9 # 2)].
Proof. by vm_compute. Qed.


(** The filters "DATA" and at most 25 hours on [sample_catalog], top 2. *)
Lemma recommend_by_filters_sorted_top_k_witness :
  let result :=
    recommend_by_filters sample_catalog (Some "DATA") None (Some 25%Q) None 2 in
  Forall (λ c, satisfies_filters (Some "DATA") None (Some 25%Q) None c = true)
         result
  ∧ Z.of_nat (length result) ≤ 2
  ∧ (∃ ranking : list (nat * Course),
       ranking ≡ₚ filter (λ p : nat * Course,
                    satisfies_filters (Some "DATA") None (Some 25%Q) None p.2
                    = true)
                  (Py.enumerate sample_catalog)
       ∧ StronglySorted (ranked_before course_rating) ranking
       ∧ result = (take (Z.to_nat 2) ranking).*2)
  ∧ (Some "DATA" = None → @None string = None →
     Some 25%Q = None → @None Q = None →
     ∃ ranking : list (nat * Course),
       ranking ≡ₚ Py.enumerate sample_catalog
       ∧ StronglySorted (ranked_before course_rating) ranking
       ∧ result = (take (Z.to_nat 2) ranking).*2).
Proof.
  apply (recommend_by_filters_sorted_top_k sample_catalog (Some "DATA") None
           (Some 25%Q) None 2).
  lia.
Defined.


(** * Further properties of the catalog lookups *)

Lemma py_index_elem_of {A} (l : list A) (i : Z) (x : A) :
  Py.index l i = Some x → x ∈ l.
Proof.
  unfold Py.index. repeat case_decide; [| |done].
  all: intros Hx; by eapply list_elem_of_lookup_2.
Qed.

(** Whatever the list and the bounds, a course the loop returns is a course
    of the list with the id asked for. *)
Lemma bs_loop_sound courses target_id lo hi c :
  (bs_loop courses target_id lo hi).1 = Return (Some c) →
  c ∈ courses ∧ course_id c = target_id.
Proof.
  funelim (bs_loop courses target_id lo hi); simpl; clear_inspected;
    try done; try (by apply H).
  intros [= ->]. split; [by eapply py_index_elem_of|by apply Z.eqb_eq].
Qed.

(** X1.  [binary_search] never returns a wrong course: on any list, sorted
    or not, a course it returns is an entry of the list and carries the id
    that was asked for. *)
Theorem binary_search_sound :
  ∀ (courses : list Course) (target_id : Z) (c : Course),
    binary_search courses target_id = Return (Some c) →
    c ∈ courses ∧ course_id c = target_id.
Proof. intros courses target_id c. apply bs_loop_sound. Qed.

(** On [sample_shuffled] the search for id 4 happens to hit. *)
Lemma binary_search_sound_witness :
  sample_course 4 8 [1; 3] ∈ sample_shuffled
  ∧ course_id (sample_course 4 8 [1; 3]) = 4.
Proof.
  apply (binary_search_sound sample_shuffled 4 (sample_course 4 8 [1; 3])).
  reflexivity.
Defined.

Lemma weakly_sorted_by_id_lookup (courses : list Course) (i j : nat) ci cj :
  weakly_sorted_by_id courses →
  courses !! i = Some ci → courses !! j = Some cj → (i ≤ j)%nat →
  course_id ci ≤ course_id cj.
Proof.
  unfold weakly_sorted_by_id. intros Hs%Sorted_StronglySorted; [|apply _].
  revert i j. induction courses as [|c courses IH]; intros i j Hi Hj Hle.
  - by rewrite lookup_nil in Hi.
  - apply StronglySorted_inv in Hs as [Hs Hall].
    destruct i as [|i], j as [|j]; simpl in *; [|  |lia|].
    + assert (ci = cj) as -> by congruence. lia.
    + injection Hi as ->. rewrite Forall_forall in Hall. apply Hall.
      apply list_elem_of_fmap. exists cj. split; [done|].
      by apply list_elem_of_lookup_2 with j.
    + apply (IH Hs i j); [done..|lia].
Qed.

(** On a list sorted by id, repeats allowed, a loop whose bounds enclose
    every position that holds [target_id] finds one of them, or reports
    that there is none. *)
Lemma bs_loop_complete courses target_id lo hi :
  weakly_sorted_by_id courses →
  0 ≤ lo → hi < Z.of_nat (length courses) →
  (∀ (i : nat) c, courses !! i = Some c → course_id c = target_id →
                  lo ≤ Z.of_nat i ≤ hi) →
  match (bs_loop courses target_id lo hi).1 with
  | Return (Some c) => c ∈ courses ∧ course_id c = target_id
  | Return None => ∀ c, c ∈ courses → course_id c ≠ target_id
  | _ => False
  end.
Proof.
  intros Hsorted.
  funelim (bs_loop courses target_id lo hi); intros Hlo Hhi Hwin; simpl.
  all: clear_inspected.
  all: try pose proof (mid_between _ _ (proj1 (Z.leb_le _ _) Hle)) as Hmid.
  all: try (rewrite py_index_in_range in e by lia).
  - intros c [i Hi]%list_elem_of_lookup_1 Hid.
    specialize (Hwin i c Hi Hid). lia.
  - apply lookup_ge_None_1 in e. lia.
  - split; [by eapply list_elem_of_lookup_2|by apply Z.eqb_eq].
  - apply H; [done|lia..|]. intros i ci Hi Hid.
    apply Z.ltb_lt in e1. specialize (Hwin i ci Hi Hid).
    destruct (decide (Z.to_nat ((lo + hi) `div` 2) < i)%nat); [lia|].
    pose proof (weakly_sorted_by_id_lookup _ i _ ci c Hsorted Hi e
                  ltac:(lia)). lia.
  - apply H; [done|lia..|]. intros i ci Hi Hid.
    apply Z.eqb_neq in e0. apply Z.ltb_ge in e1.
    specialize (Hwin i ci Hi Hid).
    destruct (decide (i < Z.to_nat ((lo + hi) `div` 2))%nat); [lia|].
    pose proof (weakly_sorted_by_id_lookup _ _ i c ci Hsorted e Hi
                  ltac:(lia)). lia.
Qed.

(** X2.  Sortedness need not be strict: on a list sorted by id in which ids
    may repeat, [binary_search] returns an entry with the id whenever one
    exists, and [None] exactly when none exists; it does not raise. *)
Theorem binary_search_weakly_sorted :
  ∀ (courses : list Course) (target_id : Z),
    weakly_sorted_by_id courses →
    match binary_search courses target_id with
    | Return (Some c) => c ∈ courses ∧ course_id c = target_id
    | Return None => ∀ c, c ∈ courses → course_id c ≠ target_id
    | _ => False
    end.
Proof.
  intros courses target_id Hsorted.
  apply bs_loop_complete; [done|lia..|].
  intros i c Hi _. apply lookup_lt_Some in Hi. lia.
Qed.

(** On [sample_weakly_sorted], where id 3 occurs twice. *)
Lemma binary_search_weakly_sorted_witness :
  match binary_search sample_weakly_sorted 3 with
  | Return (Some c) => c ∈ sample_weakly_sorted ∧ course_id c = 3
  | Return None => ∀ c, c ∈ sample_weakly_sorted → course_id c ≠ 3
  | _ => False
  end.
Proof.
  apply (binary_search_weakly_sorted sample_weakly_sorted 3).
  unfold weakly_sorted_by_id. simpl. repeat constructor; lia.
Defined.

(** A window of fewer than [2 ^ k] positions is settled in [k] reads. *)
Lemma bs_loop_probes courses target_id lo hi :
  ∀ k : nat, hi - lo + 1 < 2 ^ Z.of_nat k →
             (length (bs_loop courses target_id lo hi).2 ≤ k)%nat.
Proof.
  funelim (bs_loop courses target_id lo hi); intros k Hk; simpl.
  all: clear_inspected.
  all: try pose proof (mid_between _ _ (proj1 (Z.leb_le _ _) Hle)) as Hmid.
  all: try (destruct k as [|k];
            [simpl in Hk; lia
            |rewrite Nat2Z.inj_succ, Z.pow_succ_r in Hk by lia]).
  - lia.
  - lia.
  - lia.
  - apply le_n_S, H.
    pose proof (Z.div_mod (lo + hi) 2 ltac:(lia)).
    pose proof (Z.mod_pos_bound (lo + hi) 2 ltac:(lia)). lia.
  - apply le_n_S, H.
    pose proof (Z.div_mod (lo + hi) 2 ltac:(lia)).
    pose proof (Z.mod_pos_bound (lo + hi) 2 ltac:(lia)). lia.
Qed.

(** X3.  [binary_search] reads at most [floor(log2 n) + 1] entries of a list
    of [n] courses, whatever the list and the id, and none of an empty
    list. *)
Theorem binary_search_logarithmic :
  ∀ (courses : list Course) (target_id : Z),
    (length (binary_search_mids courses target_id)
     ≤ Z.to_nat (Z.log2 (Z.of_nat (length courses))) + 1)%nat
    ∧ match courses with
      | [] => binary_search_mids courses target_id = []
      | _ :: _ => True
      end.
Proof.
  intros courses target_id. split.
  - apply bs_loop_probes.
    destruct courses as [|c courses]; [done|].
    pose proof (Z.log2_spec (Z.of_nat (length (c :: courses)))
                  ltac:(simpl; lia)) as [_ Hlt].
    pose proof (Z.log2_nonneg (Z.of_nat (length (c :: courses)))).
    replace (Z.of_nat (Z.to_nat (Z.log2 (Z.of_nat (length (c :: courses))))
                       + 1))
      with (Z.succ (Z.log2 (Z.of_nat (length (c :: courses))))) by lia.
    lia.
  - by destruct courses.
Qed.

(** ** The index and the list *)

(** X4.  Whatever the list, [build_course_index] files every course under
    its own id: an entry of the index is a course of the list carrying the
    key as its id, and every course of the list finds some entry under its
    id. *)
Theorem build_course_index_keys :
  ∀ (courses : list Course),
    map_Forall (λ id c, c ∈ courses ∧ course_id c = id)
               (build_course_index courses)
    ∧ Forall (λ c, is_Some (build_course_index courses !! course_id c))
             courses.
Proof.
  intros courses. induction courses as [|c courses [IHk IHc]] using rev_ind.
  - split; [apply map_Forall_empty|constructor].
  - rewrite build_course_index_snoc. split.
    + apply map_Forall_insert_2.
      * split; [|done]. apply elem_of_app. right. constructor.
      * eapply map_Forall_impl; [exact IHk|]. simpl.
        intros id c' [Hc' Hid]. split; [|done]. apply elem_of_app. by left.
    + apply Forall_app. split.
      * eapply Forall_impl; [exact IHc|]. intros c' Hc'; simpl in *.
        destruct (decide (course_id c = course_id c')) as [->|Hne].
        -- rewrite lookup_insert_eq. eauto.
        -- by rewrite lookup_insert_ne.
      * constructor; [|constructor]. rewrite lookup_insert_eq. eauto.
Qed.

Lemma build_course_index_to_list (courses : list Course) :
  NoDup (course_id <$> courses) →
  (map_to_list (build_course_index courses)).*2 ≡ₚ courses.
Proof.
  induction courses as [|c courses IH] using rev_ind; intros Hnd.
  - unfold build_course_index. simpl. by rewrite map_to_list_empty.
  - rewrite build_course_index_snoc.
    rewrite fmap_app, NoDup_app in Hnd. destruct Hnd as (Hnd & Hfresh & _).
    rewrite map_to_list_insert.
    + rewrite fmap_cons, IH by done. simpl.
      by rewrite <- Permutation_cons_append.
    + apply build_course_index_absent. intros c' Hc' Heq.
      apply (Hfresh (course_id c')); [by apply list_elem_of_fmap_2|].
      rewrite Heq. set_solver.
Qed.

(** X5.  Round trip: from a list without repeated ids, the index holds
    exactly the courses of the list, as many entries as the list is long,
    and looking a course up by its id gives that course back. *)
Theorem build_course_index_round_trip :
  ∀ (courses : list Course),
    NoDup (course_id <$> courses) →
    (map_to_list (build_course_index courses)).*2 ≡ₚ courses
    ∧ size (build_course_index courses) = length courses
    ∧ Forall (λ c, build_course_index courses !! course_id c = Some c) courses.
Proof.
  intros courses Hnd.
  pose proof (build_course_index_to_list courses Hnd) as Hperm.
  split; [done|]. split.
  - apply Permutation_length in Hperm.
    by rewrite length_fmap, length_map_to_list in Hperm.
  - apply Forall_forall. intros c Hc. by apply build_course_index_present.
Qed.

(** * Further properties of the prerequisite resolver *)

Lemma foldl_invariant {A B} (f : A → B → A) (P : A → Prop) (l : list B) :
  (∀ a b, P a → P (f a b)) → ∀ a, P a → P (foldl f a l).
Proof.
  intros Hstep. induction l as [|b l IH]; intros a Ha; [done|].
  simpl. by apply IH, Hstep.
Qed.

Lemma walk_loop_invariant (courses_index : gmap Z Course) (max_depth : Z)
    (I : walk → Prop) :
  (∀ w, I w → I (walk_level courses_index w)) →
  ∀ w, I w → I (walk_loop courses_index max_depth w).
Proof.
  intros Hstep.
  apply (walk_loop_ind courses_index max_depth (λ w r, I w → I r)); auto.
Qed.

Lemma concat_walk_after (w : walk) (s : scan) :
  concat (walk_levels (walk_after w s))
  = concat (walk_levels w) ++ level_courses s.
Proof.
  unfold walk_after; simpl. destruct (level_courses s) as [|c l].
  - by rewrite app_nil_r.
  - rewrite concat_app. simpl. by rewrite app_nil_r.
Qed.

Section Levels.
Context (courses_index : gmap Z Course).
Implicit Types (s : scan) (w : walk) (c : Course).

(** A course put in a level is an entry of the index. *)
Lemma visit_from_index s pid :
  Forall (λ c, ∃ id, courses_index !! id = Some c) (level_courses s) →
  Forall (λ c, ∃ id, courses_index !! id = Some c)
         (level_courses (visit courses_index s pid)).
Proof.
  intros Hs. unfold visit. case_decide; [done|].
  destruct (courses_index !! pid) as [c|] eqn:Hc; [|done]. simpl.
  apply Forall_app. split; [done|]. repeat constructor. eauto.
Qed.

(** No level is empty and all courses of the levels are index entries. *)
Lemma walk_level_from_index w :
  Forall (λ lvl, lvl ≠ []) (walk_levels w)
  ∧ Forall (λ c, ∃ id, courses_index !! id = Some c) (concat (walk_levels w)) →
  Forall (λ lvl, lvl ≠ []) (walk_levels (walk_level courses_index w))
  ∧ Forall (λ c, ∃ id, courses_index !! id = Some c)
           (concat (walk_levels (walk_level courses_index w))).
Proof.
  intros [Hne Hidx]. unfold walk_level. split.
  - unfold walk_after; simpl.
    destruct (level_courses _) eqn:Hlvl; [done|].
    apply Forall_app. split; [done|]. by repeat constructor.
  - rewrite concat_walk_after. apply Forall_app. split; [done|].
    apply (foldl_invariant (visit courses_index)
             (λ s, Forall (λ c, ∃ id, courses_index !! id = Some c)
                          (level_courses s))).
    + intros s pid. apply visit_from_index.
    + constructor.
Qed.

(** With every course filed under its own id, the courses of the levels
    have distinct ids, all of them in [seen]. *)
Lemma visit_distinct (prev : list Course) s pid :
  key_consistent courses_index →
  NoDup (course_id <$> (prev ++ level_courses s))
  ∧ (∀ c, c ∈ prev ++ level_courses s → course_id c ∈ scan_seen s) →
  NoDup (course_id <$> (prev ++ level_courses (visit courses_index s pid)))
  ∧ (∀ c, c ∈ prev ++ level_courses (visit courses_index s pid) →
          course_id c ∈ scan_seen (visit courses_index s pid)).
Proof.
  intros Hkeys [Hnd Hseen]. unfold visit. case_decide as Hpid; [done|].
  destruct (courses_index !! pid) as [c|] eqn:Hc; [|done]. simpl.
  apply Hkeys in Hc. simpl in Hc. subst pid.
  rewrite app_assoc. split.
  - rewrite fmap_app. apply NoDup_app. split; [done|]. split.
    + intros id (c' & -> & Hc')%list_elem_of_fmap Hin.
      apply list_elem_of_singleton in Hin. apply Hpid. rewrite <- Hin.
      by apply Hseen.
    + apply NoDup_singleton.
  - intros c' [Hc' | ->%list_elem_of_singleton]%elem_of_app.
    + apply elem_of_union. left. by apply Hseen.
    + apply elem_of_union. right. by apply elem_of_singleton.
Qed.

Lemma walk_level_distinct w :
  key_consistent courses_index →
  NoDup (course_id <$> concat (walk_levels w))
  ∧ (∀ c, c ∈ concat (walk_levels w) → course_id c ∈ walk_seen w) →
  NoDup (course_id <$> concat (walk_levels (walk_level courses_index w)))
  ∧ (∀ c, c ∈ concat (walk_levels (walk_level courses_index w)) →
          course_id c ∈ walk_seen (walk_level courses_index w)).
Proof.
  intros Hkeys Hw. unfold walk_level. rewrite concat_walk_after.
  apply (foldl_invariant (visit courses_index)
    (λ s, NoDup (course_id <$> (concat (walk_levels w) ++ level_courses s))
          ∧ (∀ c, c ∈ concat (walk_levels w) ++ level_courses s →
                  course_id c ∈ scan_seen s))).
  - intros s pid. by apply visit_distinct.
  - unfold scan_start; simpl. by rewrite app_nil_r.
Qed.
End Levels.

(** ** The flat path *)

Lemma foldl_foldl_concat {A B} (f : A → B → A) (a : A) (ls : list (list B)) :
  foldl (λ acc l, foldl f acc l) a ls = foldl f a (concat ls).
Proof.
  revert a. induction ls as [|l ls IH]; intros a; [done|].
  simpl. by rewrite foldl_app, IH.
Qed.

Lemma flatten_levels_concat (lvls : list (list Course)) :
  flatten_levels lvls = (foldl add_flat ([], ∅) (concat (reverse lvls))).1.
Proof. unfold flatten_levels. by rewrite foldl_foldl_concat. Qed.

Lemma add_flat_inv (acc : list Course * gset Z) (c : Course) :
  flat_inv acc → flat_inv (add_flat acc c).
Proof.
  intros [Hnd Hids]. unfold add_flat. case_decide as Hc; [done|].
  split; simpl.
  - rewrite fmap_app. apply NoDup_app. split; [done|]. split.
    + intros id Hid Hin. apply list_elem_of_singleton in Hin. subst id.
      by apply Hc, Hids.
    + apply NoDup_singleton.
  - intros id. rewrite elem_of_union, elem_of_singleton, fmap_app,
      elem_of_app, Hids. simpl. by rewrite list_elem_of_singleton.
Qed.

(** Each course the loop meets has its id in the path afterwards, and the
    path grows by courses it meets, in their order. *)
Lemma add_flat_fold (cs : list Course) (acc : list Course * gset Z) :
  flat_inv acc →
  flat_inv (foldl add_flat acc cs)
  ∧ (∃ added, (foldl add_flat acc cs).1 = acc.1 ++ added
              ∧ added `sublist_of` cs)
  ∧ (∀ c, c ∈ cs → course_id c ∈ course_id <$> (foldl add_flat acc cs).1).
Proof.
  revert acc. induction cs as [|c cs IH]; intros acc Hacc; simpl.
  - split; [done|]. split; [|by intros c ?%elem_of_nil].
    exists []. by rewrite app_nil_r.
  - destruct (IH (add_flat acc c) (add_flat_inv acc c Hacc))
      as (Hinv & (added & Hadded & Hsub) & Hcover).
    split; [done|].
    destruct (decide (course_id c ∈ acc.2)) as [Hin|Hnin].
    + assert (add_flat acc c = acc) as Heq
        by (unfold add_flat; by rewrite decide_True).
      rewrite Heq in *. split.
      * exists added. split; [done|]. by apply sublist_cons.
      * intros c' [->|Hc']%elem_of_cons; [|by apply Hcover].
        rewrite Hadded, fmap_app. apply elem_of_app. left.
        by apply Hacc.
    + assert (add_flat acc c = (acc.1 ++ [c], acc.2 ∪ {[course_id c]}))
        as Heq by (unfold add_flat; by rewrite decide_False).
      rewrite Heq in *. simpl in Hadded. rewrite <- app_assoc in Hadded.
      split.
      * exists (c :: added). split; [done|]. by apply sublist_skip.
      * intros c' [->|Hc']%elem_of_cons; [|by apply Hcover].
        rewrite Hadded, !fmap_app. apply elem_of_app. right.
        simpl. constructor.
Qed.

(** On courses with distinct ids the loop keeps every one. *)
Lemma add_flat_fold_distinct (cs : list Course) (acc : list Course * gset Z) :
  flat_inv acc → NoDup (course_id <$> (acc.1 ++ cs)) →
  (foldl add_flat acc cs).1 = acc.1 ++ cs.
Proof.
  revert acc. induction cs as [|c cs IH]; intros acc Hacc Hnd; simpl.
  - by rewrite app_nil_r.
  - assert (course_id c ∉ acc.2) as Hfresh.
    { destruct Hacc as [_ Hids]. rewrite Hids.
      rewrite fmap_app, fmap_cons in Hnd.
      apply NoDup_app in Hnd as (_ & Hdisj & _).
      intros Hin. apply (Hdisj _ Hin). constructor. }
    assert (add_flat acc c = (acc.1 ++ [c], acc.2 ∪ {[course_id c]})) as Hadd.
    { unfold add_flat. by rewrite decide_False. }
    rewrite IH.
    + rewrite Hadd. simpl. by rewrite <- app_assoc.
    + by apply add_flat_inv.
    + rewrite Hadd. simpl. by rewrite <- app_assoc.
Qed.

Lemma flat_inv_start : flat_inv ([], ∅).
Proof.
  split; simpl; [constructor|]. intros id. split; [set_solver|].
  by intros ?%elem_of_nil.
Qed.

(** ** What every learning path satisfies *)

Lemma elem_of_concat {A} (x : A) (ls : list (list A)) :
  x ∈ concat ls ↔ ∃ l, l ∈ ls ∧ x ∈ l.
Proof.
  induction ls as [|l ls IH]; simpl.
  - split; [by intros ?%elem_of_nil|by intros (l & ?%elem_of_nil & _)].
  - rewrite elem_of_app, IH. split.
    + intros [Hx | (l' & Hl' & Hx)]; [exists l|exists l']; split; try done.
      * constructor.
      * by constructor.
    + intros (l' & [->|Hl']%elem_of_cons & Hx); [by left|right; eauto].
Qed.

Lemma concat_reverse_Permutation {A} (ls : list (list A)) :
  concat (reverse ls) ≡ₚ concat ls.
Proof.
  induction ls as [|l ls IH]; [done|].
  rewrite reverse_cons, concat_app. simpl.
  by rewrite app_nil_r, IH, Permutation_app_comm.
Qed.

Lemma build_course_index_consistent (courses : list Course) :
  key_consistent (build_course_index courses).
Proof.
  induction courses as [|c courses IH] using rev_ind.
  - apply map_Forall_empty.
  - rewrite build_course_index_snoc. by apply map_Forall_insert_2.
Qed.

(** X6.  Dangling prerequisite ids are skipped and leave no trace: in the
    path [get_learning_path] returns, the target is the index entry of the
    queried id, no level is empty, and every course of every level is an
    entry of the index.  [None] is returned exactly for an id the index
    lacks. *)
Theorem get_learning_path_levels_from_index :
  ∀ (courses_index : gmap Z Course) (max_depth id : Z),
    match get_learning_path id courses_index max_depth with
    | Some path =>
        courses_index !! id = Some (target path)
        ∧ Forall (λ lvl, lvl ≠ []) (levels path)
        ∧ Forall (λ c, ∃ pid, courses_index !! pid = Some c)
                 (concat (levels path))
    | None => courses_index !! id = None
    end.
Proof.
  intros courses_index max_depth id. unfold get_learning_path.
  destruct (courses_index !! id) as [tgt|]; [|done]. simpl.
  split; [done|].
  apply (walk_loop_invariant courses_index max_depth
    (λ w, Forall (λ lvl, lvl ≠ []) (walk_levels w)
          ∧ Forall (λ c, ∃ pid, courses_index !! pid = Some c)
                   (concat (walk_levels w)))).
  - apply walk_level_from_index.
  - by split; constructor.
Qed.

(** X7.  Whatever the index, the flat path lists courses with pairwise
    distinct ids; it is drawn, in order, from the levels read from the
    deepest to the nearest; and every id that occurs in some level occurs in
    the flat path. *)
Theorem get_learning_path_flat_path_distinct :
  ∀ (courses_index : gmap Z Course) (max_depth id : Z),
    match get_learning_path id courses_index max_depth with
    | Some path =>
        NoDup (course_id <$> flat_path path)
        ∧ flat_path path `sublist_of` concat (reverse (levels path))
        ∧ Forall (λ c, course_id c ∈ course_id <$> flat_path path)
                 (concat (levels path))
    | None => courses_index !! id = None
    end.
Proof.
  intros courses_index max_depth id. unfold get_learning_path.
  destruct (courses_index !! id) as [tgt|]; [|done]. simpl.
  set (lvls := walk_levels _). rewrite flatten_levels_concat.
  destruct (add_flat_fold (concat (reverse lvls)) ([], ∅) flat_inv_start)
    as ([Hnd _] & (added & Hadded & Hsub) & Hcover).
  split; [done|]. split.
  - by rewrite Hadded.
  - apply Forall_forall. intros c Hc. apply Hcover.
    apply elem_of_concat in Hc as (lvl & Hlvl & Hc).
    apply elem_of_concat. exists lvl. split; [|done].
    by apply elem_of_reverse.
Qed.

(** X8.  On an index made by [build_course_index], no course occurs twice
    in the levels, and the flat path is exactly the levels laid end to end
    from the deepest to the nearest: nothing is dropped from it. *)
Theorem get_learning_path_flat_path_exact :
  ∀ (courses : list Course) (max_depth id : Z),
    match get_learning_path id (build_course_index courses) max_depth with
    | Some path =>
        NoDup (course_id <$> concat (levels path))
        ∧ flat_path path = concat (reverse (levels path))
    | None => build_course_index courses !! id = None
    end.
Proof.
  intros courses max_depth id. unfold get_learning_path.
  destruct (build_course_index courses !! id) as [tgt|]; [|done]. simpl.
  pose proof (build_course_index_consistent courses) as Hkeys.
  destruct (walk_loop_invariant (build_course_index courses) max_depth
    (λ w, NoDup (course_id <$> concat (walk_levels w))
          ∧ (∀ c, c ∈ concat (walk_levels w) → course_id c ∈ walk_seen w))
    (λ w, walk_level_distinct _ w Hkeys)
    (mkWalk ∅ [] (prerequisite_ids tgt) 0 false)) as [Hnd _].
  { split; [constructor|]. by intros c ?%elem_of_nil. }
  split; [done|]. rewrite flatten_levels_concat.
  rewrite add_flat_fold_distinct; [done|apply flat_inv_start|]. simpl.
  by rewrite concat_reverse_Permutation.
Qed.

(** ** The first level, and the cap *)

Lemma dedup_from_fresh (met : gset Z) (ids : list Z) :
  NoDup (dedup_from met ids) ∧ ∀ id, id ∈ dedup_from met ids → id ∉ met.
Proof.
  revert met. induction ids as [|id ids IH]; intros met; simpl.
  - split; [constructor|]. by intros id ?%elem_of_nil.
  - case_decide as Hid; [apply IH|].
    destruct (IH (met ∪ {[id]})) as [Hnd Hfresh]. split.
    + constructor; [|done]. intros Hin%Hfresh.
      apply Hin, elem_of_union. right. by apply elem_of_singleton.
    + intros id' [->|Hin%Hfresh]%elem_of_cons; [done|].
      intros Hmet. apply Hin, elem_of_union. by left.
Qed.

Section FirstLevel.
Context (courses_index : gmap Z Course).
Implicit Types (s : scan) (w : walk).

(** A frontier of distinct ids, none of them seen: its level is made of
    the index entries of those ids, in order. *)
Lemma scan_fresh_level (frontier : list Z) s :
  NoDup frontier → (∀ pid, pid ∈ frontier → pid ∉ scan_seen s) →
  level_courses (foldl (visit courses_index) s frontier)
  = level_courses s ++ omap (λ pid, courses_index !! pid) frontier.
Proof.
  revert s. induction frontier as [|pid frontier IH]; intros s Hnd Hfresh.
  - simpl. by rewrite app_nil_r.
  - apply NoDup_cons in Hnd as [Hpid Hnd]. simpl.
    assert (pid ∉ scan_seen s) as Hnew by (apply Hfresh; constructor).
    unfold visit at 2. rewrite decide_False by done.
    destruct (courses_index !! pid) as [c|] eqn:Hc; simpl.
    + rewrite IH; simpl; [by rewrite <- app_assoc|done|].
      intros pid' Hpid' [Hin | ->%elem_of_singleton]%elem_of_union.
      * by apply (Hfresh pid'); [constructor|].
      * done.
    + apply IH; [done|]. intros pid' Hpid'. apply Hfresh. by constructor.
Qed.

(** An empty level queues nothing. *)
Lemma scan_empty_level (frontier : list Z) w :
  level_courses (foldl (visit courses_index) (scan_start w) frontier) = [] →
  next_frontier (foldl (visit courses_index) (scan_start w) frontier) = [].
Proof.
  apply (foldl_invariant (visit courses_index)
           (λ s, level_courses s = [] → next_frontier s = [])); [|done].
  intros s pid Hs. unfold visit. case_decide; [done|].
  destruct (courses_index !! pid); [|done]. simpl.
  by intros [_ ?]%app_nil.
Qed.

Lemma walk_level_levels_prefix w :
  walk_levels w `prefix_of` walk_levels (walk_level courses_index w).
Proof.
  unfold walk_level, walk_after; simpl.
  destruct (level_courses _); [done|]. by apply prefix_app_r.
Qed.

Lemma visit_keeps_flag s pid :
  scan_cycle s = true → scan_cycle (visit courses_index s pid) = true.
Proof.
  intros Hs. unfold visit. case_decide; [done|].
  by destruct (courses_index !! pid).
Qed.

Lemma walk_level_keeps_flag w :
  walk_cycle w = true → walk_cycle (walk_level courses_index w) = true.
Proof.
  intros Hw. unfold walk_level, walk_after; simpl.
  apply (foldl_invariant (visit courses_index) (λ s, scan_cycle s = true));
    [|done].
  intros s pid. apply visit_keeps_flag.
Qed.

(** Along the loop the levels only grow at the end and the flag is only
    raised. *)
Lemma walk_loop_grows (max_depth : Z) w :
  walk_levels w `prefix_of` walk_levels (walk_loop courses_index max_depth w)
  ∧ (walk_cycle w = true →
     walk_cycle (walk_loop courses_index max_depth w) = true).
Proof.
  apply (walk_loop_ind courses_index max_depth (λ w r,
    walk_levels w `prefix_of` walk_levels r
    ∧ (walk_cycle w = true → walk_cycle r = true))).
  - done.
  - intros w' r _ [Hlvls Hflag]. split.
    + etrans; [apply walk_level_levels_prefix|done].
    + intros Hw. by apply Hflag, walk_level_keeps_flag.
Qed.

(** A walk stopped at a cap is resumed by a walk with a larger cap. *)
Lemma walk_loop_resume (max_depth max_depth' : Z) w :
  max_depth ≤ max_depth' →
  walk_loop courses_index max_depth' (walk_loop courses_index max_depth w)
  = walk_loop courses_index max_depth' w.
Proof.
  intros Hle.
  apply (walk_loop_ind courses_index max_depth (λ w r,
    walk_loop courses_index max_depth' r
    = walk_loop courses_index max_depth' w)).
  - done.
  - intros w' r Hgo IH. rewrite IH, (walk_loop_step _ _ w').
    assert (walk_continues max_depth' w' = true) as ->; [|done].
    unfold walk_continues in *. destruct (current_frontier w'); [done|].
    apply Z.ltb_lt in Hgo. apply Z.ltb_lt. lia.
Qed.

(** Until the frontier runs dry, every turn adds a level. *)
Lemma walk_level_counts w :
  Z.of_nat (length (walk_levels w)) = depth w ∨ current_frontier w = [] →
  Z.of_nat (length (walk_levels (walk_level courses_index w)))
  = depth (walk_level courses_index w)
  ∨ current_frontier (walk_level courses_index w) = [].
Proof.
  intros Hw. unfold walk_level.
  pose proof (scan_empty_level (current_frontier w) w) as Hempty.
  destruct (level_courses (foldl (visit courses_index) (scan_start w)
                                 (current_frontier w))) as [|c lvl] eqn:Hlvl.
  - right. simpl. by apply Hempty.
  - destruct Hw as [Hw | Hw].
    + left. unfold walk_after; simpl. rewrite Hlvl, length_app. simpl. lia.
    + rewrite Hw in Hlvl. done.
Qed.
End FirstLevel.

Lemma first_level (courses_index : gmap Z Course) (frontier : list Z) :
  level_courses (foldl (visit courses_index)
                       (mkScan ∅ [] [] false) frontier)
  = omap (λ pid, courses_index !! pid) (deduplicated frontier).
Proof.
  destruct (scan_agree_dedup courses_index frontier ∅
              (mkScan ∅ [] [] false) (mkScan ∅ [] [] false))
    as (_ & -> & _).
  - done.
  - by intros id ?%elem_of_empty.
  - destruct (dedup_from_fresh ∅ frontier) as [Hnd _].
    by rewrite scan_fresh_level.
Qed.

(** X9.  With a cap of at least one, the first level is the list of the
    direct prerequisites that the index knows: the target's
    [prerequisite_ids] without repeats, in their order, looked up in the
    index, unknown ids dropped.  When none of them is known the path has no
    levels at all. *)
Theorem get_learning_path_first_level :
  ∀ (courses_index : gmap Z Course) (max_depth id : Z),
    0 < max_depth →
    match get_learning_path id courses_index max_depth with
    | Some path =>
        match omap (λ pid, courses_index !! pid)
                   (deduplicated (prerequisite_ids (target path))) with
        | [] => levels path = []
        | direct => head (levels path) = Some direct
        end
    | None => courses_index !! id = None
    end.
Proof.
  intros courses_index max_depth id Hcap. unfold get_learning_path.
  destruct (courses_index !! id) as [tgt|]; [|done]. simpl.
  set (w0 := mkWalk ∅ [] (prerequisite_ids tgt) 0 false).
  pose proof (first_level courses_index (prerequisite_ids tgt)) as Hfirst.
  rewrite walk_loop_step.
  destruct (walk_continues max_depth w0) eqn:Hgo.
  - assert (walk_levels (walk_level courses_index w0)
            = match omap (λ pid, courses_index !! pid)
                         (deduplicated (prerequisite_ids tgt)) with
              | [] => []
              | direct => [direct]
              end) as Hlvls.
    { unfold walk_level, walk_after, w0, scan_start; simpl.
      rewrite Hfirst. by destruct (omap _ _). }
    destruct (omap _ _) as [|c direct] eqn:Hdirect.
    + rewrite walk_loop_step.
      assert (walk_continues max_depth (walk_level courses_index w0) = false)
        as ->; [|done].
      unfold walk_continues.
      assert (current_frontier (walk_level courses_index w0) = []) as ->;
        [|done].
      apply (scan_empty_level courses_index (prerequisite_ids tgt) w0).
      unfold w0, scan_start; simpl. by rewrite Hfirst.
    + destruct (walk_loop_grows courses_index max_depth
                  (walk_level courses_index w0)) as [[rest Hrest] _].
      rewrite Hrest, Hlvls. done.
  - unfold walk_continues, w0 in Hgo; simpl in Hgo.
    destruct (prerequisite_ids tgt); [done|].
    apply Z.ltb_ge in Hgo. simpl in Hgo. lia.
Qed.

(** On [diamond_index], course 4 requires [2, 3, 2, 9]: the first level is
    courses 2 and 3. *)
Lemma get_learning_path_first_level_witness :
  match get_learning_path 4 diamond_index 20 with
  | Some path =>
      match omap (λ pid, diamond_index !! pid)
                 (deduplicated (prerequisite_ids (target path))) with
      | [] => levels path = []
      | direct => head (levels path) = Some direct
      end
  | None => diamond_index !! 4 = None
  end.
Proof. apply (get_learning_path_first_level diamond_index 20 4). lia. Defined.

(** X10.  Raising the cap only extends a path: for caps
    [max_depth <= max_depth'], the levels found under the smaller cap are
    the first levels found under the larger one, and a cycle reported under
    the smaller cap is reported under the larger one. *)
Theorem get_learning_path_cap_monotone :
  ∀ (courses_index : gmap Z Course) (max_depth max_depth' id : Z),
    max_depth ≤ max_depth' →
    match get_learning_path id courses_index max_depth,
          get_learning_path id courses_index max_depth' with
    | Some path, Some path' =>
        target path = target path'
        ∧ levels path `prefix_of` levels path'
        ∧ (cycle_detected path = true → cycle_detected path' = true)
    | None, None => True
    | _, _ => False
    end.
Proof.
  intros courses_index max_depth max_depth' id Hle.
  unfold get_learning_path.
  destruct (courses_index !! id) as [tgt|]; [|done]. simpl.
  split; [done|].
  rewrite <- (walk_loop_resume courses_index max_depth max_depth' _ Hle).
  apply walk_loop_grows.
Qed.

(** Caps 1 and 20 on [diamond_index]. *)
Lemma get_learning_path_cap_monotone_witness :
  match get_learning_path 4 diamond_index 1,
        get_learning_path 4 diamond_index 20 with
  | Some path, Some path' =>
      target path = target path'
      ∧ levels path `prefix_of` levels path'
      ∧ (cycle_detected path = true → cycle_detected path' = true)
  | None, None => True
  | _, _ => False
  end.
Proof. apply (get_learning_path_cap_monotone diamond_index 1 20 4). lia. Defined.

(** X11.  A path with fewer levels than the cap is complete: the walk ended
    because the frontier ran dry, and every larger cap gives the same
    path. *)
Theorem get_learning_path_below_cap_complete :
  ∀ (courses_index : gmap Z Course) (max_depth max_depth' id : Z)
    (path : LearningPath),
    get_learning_path id courses_index max_depth = Some path →
    Z.of_nat (length (levels path)) < max_depth →
    max_depth ≤ max_depth' →
    get_learning_path id courses_index max_depth' = Some path.
Proof.
  intros courses_index max_depth max_depth' id path Hpath Hfew Hle.
  unfold get_learning_path in *.
  destruct (courses_index !! id) as [tgt|]; [|done].
  injection Hpath as <-. simpl in Hfew. f_equal. unfold learning_path_from.
  set (w0 := mkWalk ∅ [] (prerequisite_ids tgt) 0 false) in *.
  set (r := walk_loop courses_index max_depth w0) in *.
  assert (walk_loop courses_index max_depth' w0 = r) as ->; [|done].
  rewrite <- (walk_loop_resume courses_index max_depth max_depth' _ Hle).
  fold r. rewrite walk_loop_step.
  assert (walk_continues max_depth' r = false) as ->; [|done].
  pose proof (walk_loop_stops courses_index max_depth w0) as Hstop.
  fold r in Hstop.
  pose proof (walk_loop_invariant courses_index max_depth
    (λ w, Z.of_nat (length (walk_levels w)) = depth w
          ∨ current_frontier w = [])
    (walk_level_counts courses_index) w0 (or_introl eq_refl)) as Hcount.
  fold r in Hcount. unfold walk_continues in *.
  destruct (current_frontier r); [done|].
  apply Z.ltb_ge in Hstop. destruct Hcount as [Hcount|?]; [lia|done].
Qed.

(** On [diamond_index] the path of course 4 has two levels; cap 20 or 50. *)
Lemma get_learning_path_below_cap_complete_witness :
  ∃ path, get_learning_path 4 diamond_index 20 = Some path
          ∧ get_learning_path 4 diamond_index 50 = Some path.
Proof.
  eexists. split; [reflexivity|].
  apply (get_learning_path_below_cap_complete diamond_index 20 50 4);
    [reflexivity|by vm_compute|lia].
Defined.

(** * Further properties of the recommenders *)

Lemma filter_Forall_id {A} (P : A → Prop) `{!∀ x, Decision (P x)}
    (l : list A) :
  Forall P l → filter P l = l.
Proof.
  induction 1 as [|x l Hx Hl IH]; [done|].
  by rewrite filter_cons_True, IH.
Qed.

(** Dropping one position from entries at distinct positions drops one
    entry. *)
Lemma filter_position_length {A} (l : list (nat * A)) (idx : nat) :
  NoDup l.*1 → idx ∈ l.*1 →
  S (length (filter (λ p : nat * A, p.1 ≠ idx) l)) = length l.
Proof.
  induction l as [|p l IH]; intros Hnd Hin.
  - by apply elem_of_nil in Hin.
  - rewrite fmap_cons in Hnd, Hin. apply NoDup_cons in Hnd as [Hp Hnd].
    rewrite filter_cons. destruct (decide (p.1 ≠ idx)) as [Hne|Heq]; simpl.
    + f_equal. apply IH; [done|].
      by apply elem_of_cons in Hin as [Hin|Hin]; [congruence|].
    + assert (p.1 = idx) as Hidx by (by destruct (decide (p.1 = idx))).
      f_equal. rewrite filter_Forall_id; [done|].
      apply Forall_forall. intros q Hq Hqi. apply Hp. rewrite Hidx, <- Hqi.
      by apply list_elem_of_fmap_2.
Qed.

(** The entries of a row without the query's, most similar first, equal
    scores by position. *)
Lemma similar_ranking (row : list Q) (idx : nat) :
  let ranking := filter (λ p : nat * Q, p.1 ≠ idx)
                        (Py.sorted_desc snd (Py.enumerate row)) in
  ranking ≡ₚ filter (λ p : nat * Q, p.1 ≠ idx) (Py.enumerate row)
  ∧ StronglySorted (ranked_before score) ranking
  ∧ ((idx < length row)%nat → S (length ranking) = length row).
Proof.
  intros ranking. unfold ranking. split; [|split].
  - by rewrite sorted_desc_Permutation.
  - eapply StronglySorted_sublist; [apply sublist_filter; apply _|].
    apply (sorted_desc_ranked score), enumerate_ascending.
  - intros Hidx. rewrite filter_position_length.
    + by rewrite sorted_desc_length, enumerate_length.
    + rewrite sorted_desc_Permutation, enumerate_fst. apply NoDup_seq.
    + rewrite sorted_desc_Permutation, enumerate_fst.
      apply elem_of_seq. lia.
Qed.

(** X12.  For a known id, [get_similar_courses] returns the courses at the
    first [top_k] positions of the ranking of all other positions of the
    catalog, by similarity to the query descending and, among equal
    similarities, in catalog order; it returns exactly [min(top_k, n - 1)]
    courses of a catalog of [n]. *)
Theorem get_similar_courses_ranked :
  ∀ (tfidf_cosine : list string → option (list (list Q)))
    (courses : list Course) (id top_k : Z)
    (sim : list (list Q)) (idx : nat) (row : list Q),
    tfidf_cosine (course_text <$> courses) = Some sim →
    square_for courses sim →
    index_positions courses !! id = Some idx →
    sim !! idx = Some row →
    0 ≤ top_k →
    ∃ (ranking : list (nat * Q)) (result : list Course),
      ranking ≡ₚ filter (λ p : nat * Q, p.1 ≠ idx) (Py.enumerate row)
      ∧ StronglySorted (ranked_before score) ranking
      ∧ get_similar_courses (init_recommender tfidf_cosine courses) id top_k
        = Return result
      ∧ Forall2 (λ (p : nat * Q) c, courses !! p.1 = Some c)
                (take (Z.to_nat top_k) ranking) result
      ∧ length result = Nat.min (Z.to_nat top_k) (length courses - 1).
Proof.
  intros tfidf_cosine courses id top_k sim idx row Hsim [Hlen Hrows] Hidx
    Hrow Hk.
  pose proof (Forall_lookup_1 _ _ _ _ Hrows Hrow) as Hwidth. simpl in Hwidth.
  destruct (index_positions_Some _ _ _ Hidx) as (c0 & Hc0 & _).
  apply lookup_lt_Some in Hc0.
  destruct (similar_ranking row idx) as (Hperm & Hranked & Hcount).
  specialize (Hcount ltac:(lia)).
  set (ranking := filter _ (Py.sorted_desc snd (Py.enumerate row))) in *.
  unfold init_recommender. rewrite Hsim.
  unfold get_similar_courses; simpl. rewrite Hidx, Hrow.
  fold ranking. rewrite slice_to_nonneg by done.
  destruct (mapM_is_Some_2 (λ p : nat * Q, courses !! p.1)
              (take (Z.to_nat top_k) ranking)) as [result Hresult].
  { apply Forall_take, Forall_forall. intros p Hp. simpl.
    apply lookup_lt_is_Some_2. rewrite <- Hwidth.
    rewrite Hperm in Hp. apply list_elem_of_filter in Hp as [_ Hp].
    apply enumerate_elem_of in Hp. by apply lookup_lt_Some in Hp. }
  rewrite Hresult. apply mapM_Some_1 in Hresult.
  exists ranking, result. repeat split; try done.
  rewrite <- (Forall2_length _ _ _ Hresult), length_take. lia.
Qed.

(** On [sample_catalog] with [sample_similarity], for course 1 and top 2. *)
Lemma get_similar_courses_ranked_witness :
  ∃ (ranking : list (nat * Q)) (result : list Course),
    ranking ≡ₚ filter (λ p : nat * Q, p.1 ≠ 0%nat)
                 (Py.enumerate [1; 1 # 2; 0; 1 # 2]%Q)
    ∧ StronglySorted (ranked_before score) ranking
    ∧ get_similar_courses (init_recommender sample_pipeline sample_catalog) 1 2
      = Return result
    ∧ Forall2 (λ (p : nat * Q) c, sample_catalog !! p.1 = Some c)
              (take (Z.to_nat 2) ranking) result
    ∧ length result = Nat.min (Z.to_nat 2) (length sample_catalog - 1).
Proof.
  apply (get_similar_courses_ranked sample_pipeline sample_catalog 1 2
           sample_similarity 0 [1; 1 # 2; 0; 1 # 2]%Q).
  - reflexivity.
  - split; [reflexivity|]. by repeat constructor.
  - reflexivity.
  - reflexivity.
  - lia.
Defined.

(** ** The filters and [top_k] *)

Lemma recommend_by_filters_sorted (courses : list Course)
    (cat diff : option string) (max_hours min_rating : option Q) (top_k : Z) :
  recommend_by_filters courses cat diff max_hours min_rating top_k
  = Py.slice_to
      (Py.sorted_desc course_rating
         (filter (λ c, satisfies_filters cat diff max_hours min_rating c = true)
                 courses))
      top_k.
Proof. unfold recommend_by_filters. by rewrite filters_keep_satisfying. Qed.

(** X13.  [recommend_by_filters] returns exactly [min(top_k, m)] courses
    when [m] courses pass the filters and [top_k >= 0], and a smaller
    [top_k] gives a prefix of what a larger one gives. *)
Theorem recommend_by_filters_count :
  ∀ (courses : list Course) (cat diff : option string)
    (max_hours min_rating : option Q) (top_k top_k' : Z),
    0 ≤ top_k → top_k ≤ top_k' →
    length (recommend_by_filters courses cat diff max_hours min_rating top_k)
    = Nat.min (Z.to_nat top_k)
        (length (filter (λ c, satisfies_filters cat diff max_hours min_rating c
                              = true) courses))
    ∧ recommend_by_filters courses cat diff max_hours min_rating top_k
      = take (Z.to_nat top_k)
          (recommend_by_filters courses cat diff max_hours min_rating top_k').
Proof.
  intros courses cat diff max_hours min_rating top_k top_k' Hk Hk'.
  rewrite !recommend_by_filters_sorted, !slice_to_nonneg by lia. split.
  - by rewrite length_take, sorted_desc_length.
  - rewrite take_take. f_equal. lia.
Qed.

(** The first 1 and the first 3 of the "DATA" courses of [sample_catalog]. *)
Lemma recommend_by_filters_count_witness :
  length (recommend_by_filters sample_catalog (Some "DATA") None None None 1)
  = Nat.min (Z.to_nat 1)
      (length (filter (λ c, satisfies_filters (Some "DATA") None None None c
                            = true) sample_catalog))
  ∧ recommend_by_filters sample_catalog (Some "DATA") None None None 1
    = take (Z.to_nat 1)
        (recommend_by_filters sample_catalog (Some "DATA") None None None 3).
Proof.
  apply (recommend_by_filters_count sample_catalog (Some "DATA") None None None
           1 3); lia.
Defined.

(** X14.  A negative [top_k] is not an error and is not read as zero:
    [recommend_by_filters] then returns the whole ranking of the passing
    courses except its last [-top_k] entries (nothing when the ranking has
    no more than [-top_k]). *)
Theorem recommend_by_filters_negative_top_k :
  ∀ (courses : list Course) (cat diff : option string)
    (max_hours min_rating : option Q) (top_k : Z),
    top_k < 0 →
    let full :=
      recommend_by_filters courses cat diff max_hours min_rating
                           (Z.of_nat (length courses)) in
    recommend_by_filters courses cat diff max_hours min_rating top_k
    = take (length full - Z.to_nat (- top_k)) full
    ∧ full ≡ₚ filter (λ c, satisfies_filters cat diff max_hours min_rating c
                           = true) courses.
Proof.
  intros courses cat diff max_hours min_rating top_k Hk full. unfold full.
  rewrite !recommend_by_filters_sorted.
  rewrite (slice_to_nonneg _ (Z.of_nat (length courses))) by lia.
  set (ranked := Py.sorted_desc _ _).
  assert (take (Z.to_nat (Z.of_nat (length courses))) ranked = ranked) as ->.
  { apply take_ge. unfold ranked. rewrite sorted_desc_length, Nat2Z.id.
    apply length_filter. }
  split; [|apply sorted_desc_Permutation].
  unfold Py.slice_to. rewrite decide_False by lia. f_equal. lia.
Qed.

(** [top_k = -1] on [sample_catalog] without filters. *)
Lemma recommend_by_filters_negative_top_k_witness :
  let full :=
    recommend_by_filters sample_catalog None None None None
                         (Z.of_nat (length sample_catalog)) in
  recommend_by_filters sample_catalog None None None None (-1)
  = take (length full - Z.to_nat (- -1)) full
  ∧ full ≡ₚ filter (λ c, satisfies_filters None None None None c = true)
              sample_catalog.
Proof.
  apply (recommend_by_filters_negative_top_k sample_catalog None None None
           None (-1)).
  lia.
Defined.

(** * The title search *)

Lemma string_app_cons (x : ascii) (a b : string) :
  (String x a +:+ b = String x (a +:+ b))%string.
Proof. reflexivity. Qed.

Lemma string_app_nil (b : string) : ("" +:+ b = b)%string.
Proof. reflexivity. Qed.

Lemma prefix_spec (s t : string) :
  String.prefix s t = true ↔ ∃ b, t = (s +:+ b)%string.
Proof.
  revert s. induction t as [|c' t IH]; intros [|c s]; simpl.
  - split; [by exists ""%string|done].
  - split; [done|]. intros [b Hb]. by rewrite string_app_cons in Hb.
  - split; [by exists (String c' t)|done].
  - destruct (Ascii.ascii_dec c c') as [->|Hne].
    + rewrite IH. split; intros [b Hb]; exists b.
      * by rewrite string_app_cons, Hb.
      * rewrite string_app_cons in Hb. by injection Hb.
    + split; [done|]. intros [b Hb]. rewrite string_app_cons in Hb.
      congruence.
Qed.

(** [Py.contains t s] is the substring relation: [t] splits around [s]. *)
Lemma contains_spec (t s : string) :
  Py.contains t s = true ↔ ∃ a b, t = (a +:+ s +:+ b)%string.
Proof.
  induction t as [|c t IH].
  - change (Py.contains "" s) with (String.prefix s "" || false).
    rewrite orb_false_r, prefix_spec. split.
    + intros [b Hb]. by exists ""%string, b.
    + intros ([|c a] & b & Hab); [by exists b|].
      by rewrite string_app_cons in Hab.
  - change (Py.contains (String c t) s)
      with (String.prefix s (String c t) || Py.contains t s).
    rewrite orb_true_iff, prefix_spec, IH. split.
    + intros [[b Hb] | (a & b & Hab)].
      * by exists ""%string, b.
      * exists (String c a), b. by rewrite string_app_cons, Hab.
    + intros ([|c' a] & b & Hab).
      * left. by exists b.
      * right. rewrite string_app_cons in Hab. injection Hab as -> ->.
        by exists a, b.
Qed.

Lemma string_app_assoc (a b c : string) :
  ((a +:+ b) +:+ c = a +:+ (b +:+ c))%string.
Proof.
  induction a as [|x a IH]; [done|].
  by rewrite !string_app_cons, IH.
Qed.

(** A substring of a substring is a substring. *)
Lemma contains_trans (t s r : string) :
  Py.contains t s = true → Py.contains s r = true → Py.contains t r = true.
Proof.
  rewrite !contains_spec. intros (a & b & ->) (a' & b' & ->).
  exists (a +:+ a')%string, (b' +:+ b)%string.
  by rewrite !string_app_assoc.
Qed.

Lemma filter_sublist_impl {A} (P Q : A → Prop)
    `{!∀ x, Decision (P x), !∀ x, Decision (Q x)} (l : list A) :
  (∀ x, P x → Q x) → filter P l `sublist_of` filter Q l.
Proof.
  intros HPQ. induction l as [|x l IH]; [done|].
  rewrite !filter_cons. destruct (decide (P x)) as [HP|HP].
  - rewrite decide_True by auto. by apply sublist_skip.
  - destruct (decide (Q x)); [by apply sublist_cons|done].
Qed.

(** X15.  [search_by_title] returns, in catalog order, exactly the courses
    whose lowercased title has the lowercased, stripped keyword as a
    contiguous substring. *)
Theorem search_by_title_substring :
  ∀ (courses : list Course) (keyword : string),
    search_by_title courses keyword `sublist_of` courses
    ∧ ∀ c, c ∈ search_by_title courses keyword ↔
           c ∈ courses
           ∧ ∃ a b, Py.lower (course_title c)
                    = (a +:+ PyText.strip (Py.lower keyword) +:+ b)%string.
Proof.
  intros courses keyword. unfold search_by_title. split.
  - apply sublist_filter; apply _.
  - intros c. rewrite list_elem_of_filter, contains_spec. tauto.
Qed.

Lemma lower_ascii_space (c : ascii) :
  PyText.is_space c = true → Py.lower_ascii c = c.
Proof. destruct c as [[] [] [] [] [] [] [] []]; by vm_compute. Qed.

Lemma lstrip_blank (s : string) :
  Forall (λ c, PyText.is_space c = true) (list_ascii_of_string s) →
  PyText.lstrip (Py.lower s) = ""%string.
Proof.
  induction s as [|c s IH]; simpl; [done|].
  intros [Hc Hs]%Forall_cons. rewrite lower_ascii_space by done.
  rewrite Hc. by apply IH.
Qed.

(** X16.  A keyword made of blanks only (and the empty keyword) selects
    every course: [search_by_title] then returns the whole list. *)
Theorem search_by_title_blank :
  ∀ (courses : list Course) (keyword : string),
    Forall (λ c, PyText.is_space c = true) (list_ascii_of_string keyword) →
    search_by_title courses keyword = courses.
Proof.
  intros courses keyword Hblank. unfold search_by_title, PyText.strip.
  rewrite lstrip_blank by done. simpl.
  apply filter_Forall_id, Forall_forall. intros c _. apply contains_empty.
Qed.

(** Two spaces and a tab. *)
Lemma search_by_title_blank_witness :
  search_by_title titled_catalog (String " " (String " " (String "009" "")))
  = titled_catalog.
Proof.
  apply (search_by_title_blank titled_catalog
           (String " " (String " " (String "009" "")))).
  by repeat constructor.
Defined.

(** X17.  A keyword that contains another narrows the search: when the
    normalised [keyword] occurs in the normalised [keyword'], every course
    found for [keyword'] is found for [keyword], in the same order. *)
Theorem search_by_title_narrows :
  ∀ (courses : list Course) (keyword keyword' : string),
    Py.contains (PyText.strip (Py.lower keyword'))
                (PyText.strip (Py.lower keyword)) = true →
    search_by_title courses keyword' `sublist_of`
    search_by_title courses keyword.
Proof.
  intros courses keyword keyword' Hsub. unfold search_by_title.
  apply filter_sublist_impl. intros c Hc. by eapply contains_trans.
Qed.

(** "Python B" against "python". *)
Lemma search_by_title_narrows_witness :
  search_by_title titled_catalog "Python B" `sublist_of`
  search_by_title titled_catalog " python ".
Proof.
  apply (search_by_title_narrows titled_catalog " python " "Python B").
  reflexivity.
Defined.

(** X18.  [/api/search] with a [course_id], on a list sorted by id: the
    answer is 200 with a course of the list carrying that id, or 404 when
    no course carries it; a [title] sent along is ignored, and the answer is
    never 400 or 500. *)
Theorem search_by_course_id :
  ∀ (courses : list Course) (id : Z) (title : option string),
    weakly_sorted_by_id courses →
    match search courses (Some id) title with
    | SearchCourse c => c ∈ courses ∧ course_id c = id
    | SearchNotFound => ∀ c, c ∈ courses → course_id c ≠ id
    | _ => False
    end.
Proof.
  intros courses id title Hsorted. unfold search, binary_search.
  pose proof (bs_loop_complete courses id 0 (Z.of_nat (length courses) - 1)
                Hsorted ltac:(lia) ltac:(lia)) as Hbs.
  unfold binary_search_run.
  destruct (bs_loop courses id 0 (Z.of_nat (length courses) - 1)).1
    as [[c|]| |]; try done; apply Hbs.
  all: intros i c' Hi _; apply lookup_lt_Some in Hi; lia.
Qed.

(** Id 2 on [titled_catalog], with a title sent along. *)
Lemma search_by_course_id_witness :
  match search titled_catalog (Some 2) (Some "cloud"%string) with
  | SearchCourse c => c ∈ titled_catalog ∧ course_id c = 2
  | SearchNotFound => ∀ c, c ∈ titled_catalog → course_id c ≠ 2
  | _ => False
  end.
Proof.
  apply (search_by_course_id titled_catalog 2 (Some "cloud"%string)).
  unfold weakly_sorted_by_id. simpl. repeat constructor; lia.
Defined.

(** * The routes built on the recommender and the resolver *)

Lemma roadmap_lookup (courses : list Course) (cats : list string)
    (cat : string) :
  foldl (λ (roadmap : gmap string (list Course)) cat',
           <[cat' := category_top_five courses cat']> roadmap)
        ∅ cats !! cat
  = if decide (cat ∈ cats) then Some (category_top_five courses cat) else None.
Proof.
  induction cats as [|cat' cats IH] using rev_ind.
  - rewrite decide_False by apply not_elem_of_nil. apply lookup_empty.
  - rewrite foldl_app. simpl.
    destruct (decide (cat' = cat)) as [->|Hne].
    + rewrite lookup_insert_eq. rewrite decide_True; [done|].
      apply elem_of_app. right. constructor.
    + rewrite lookup_insert_ne, IH by done.
      destruct (decide (cat ∈ cats)) as [Hin|Hnin].
      * rewrite decide_True; [done|]. apply elem_of_app. by left.
      * rewrite decide_False; [done|].
        intros [?|?%list_elem_of_singleton]%elem_of_app; congruence.
Qed.

(** One category of a career roadmap is the smart filter on that category
    alone, with [top_k = 5]. *)
Lemma category_top_five_filters (courses : list Course) (cat : string) :
  category_top_five courses cat
  = recommend_by_filters courses (Some cat) None None None 5.
Proof.
  rewrite recommend_by_filters_sorted. unfold category_top_five.
  do 2 f_equal. apply list_filter_iff. intros c.
  unfold satisfies_filters. simpl. by rewrite !andb_true_r.
Qed.

Lemma CAREER_PATHS_nonempty (goal : string) (cats : list string) :
  CAREER_PATHS !! goal = Some cats → cats ≠ [].
Proof.
  intros Hin%elem_of_list_to_map_2. unfold CAREER_PATHS_items in Hin.
  repeat (apply elem_of_cons in Hin as [[= -> ->]|Hin]; [done|]).
  by apply elem_of_nil in Hin.
Qed.

(** X19.  [/api/recommend/career] answers 400, with the five goals on
    offer, exactly for a goal that is not a key of [CAREER_PATHS]; for a
    known goal the roadmap has one entry for each category of the goal and
    no other, and the entry of a category is what [recommend_by_filters]
    returns for that category alone with [top_k = 5]. *)
Theorem career_recommend_roadmap :
  ∀ (courses : list Course) (goal : string),
    match career_recommend courses goal with
    | CareerUnknown available =>
        CAREER_PATHS !! goal = None
        ∧ available = ["Data Scientist"; "Full Stack Developer"; "AI Engineer";
                       "Cloud Engineer"; "Cybersecurity Analyst"]%string
    | CareerRoadmap goal' roadmap =>
        goal' = goal
        ∧ ∃ cats, CAREER_PATHS !! goal = Some cats
            ∧ ∀ cat, roadmap !! cat
                     = if decide (cat ∈ cats)
                       then Some (recommend_by_filters courses (Some cat)
                                    None None None 5)
                       else None
    end.
Proof.
  intros courses goal. unfold career_recommend.
  destruct (CAREER_PATHS !! goal) as [cats|] eqn:Hgoal; [|done].
  pose proof (CAREER_PATHS_nonempty goal cats Hgoal) as Hne.
  destruct cats as [|cat0 cats]; [done|].
  split; [done|]. eexists. split; [done|]. intros cat.
  rewrite roadmap_lookup. by rewrite category_top_five_filters.
Qed.

(** ** The skill gap *)



Lemma learning_path_levels_distinct (courses : list Course)
    (max_depth id : Z) (path : LearningPath) :
  get_learning_path id (build_course_index courses) max_depth = Some path →
  NoDup (course_id <$> concat (levels path)).
Proof.
  unfold get_learning_path.
  destruct (build_course_index courses !! id) as [tgt|]; [|done].
  intros [= <-]. simpl.
  pose proof (build_course_index_consistent courses) as Hkeys.
  apply (walk_loop_invariant (build_course_index courses) max_depth
    (λ w, NoDup (course_id <$> concat (walk_levels w))
          ∧ (∀ c, c ∈ concat (walk_levels w) → course_id c ∈ walk_seen w))
    (λ w, walk_level_distinct _ w Hkeys)
    (mkWalk ∅ [] (prerequisite_ids tgt) 0 false)).
  split; [constructor|]. by intros c ?%elem_of_nil.
Qed.

(** X21.  On an index made by [build_course_index], [/api/skill-gap] lists
    each missing prerequisite once: [missing_courses] has [total_missing]
    entries with pairwise distinct ids, and it is empty exactly when
    [total_missing] is 0. *)
Theorem skill_gap_analysis_counts :
  ∀ (courses : list Course) (completed_ids : list Z)
    (target_course_id : option Z) (d : skill_gap),
    skill_gap_analysis (build_course_index courses) completed_ids
                       target_course_id = SkillGapData d →
    length (missing_courses d) = total_missing d
    ∧ NoDup (course_id <$> missing_courses d).
Proof.
  intros courses completed_ids target d. unfold skill_gap_analysis.
  destruct target as [id|]; [|done].
  destruct (decide (id = 0)) as [->|Hid]; [done|].
  assert (∀ X : skill_gap_response,
            match id with 0 => SkillGapRequired | _ => X end = X) as ->
    by (by destruct id).
  destruct (get_learning_path id (build_course_index courses)
              default_max_depth) as [path|] eqn:Hpath; [|done].
  intros [= <-]. simpl.
  pose proof (learning_path_levels_distinct _ _ _ _ Hpath) as Hnd.
  set (missing := list_to_set (course_id <$> concat (levels path))
                  ∖ list_to_set completed_ids : gset Z).
  set (missing_list := filter (λ c, course_id c ∈ missing)
                              (concat (levels path))).
  assert (NoDup (course_id <$> missing_list)) as Hnd'.
  { eapply sublist_NoDup; [exact Hnd|].
    apply fmap_sublist, sublist_filter; apply _. }
  split; [|done].
  rewrite <- (length_fmap course_id), <- (size_list_to_set (C:=gset Z)) by done.
  f_equal. apply set_eq. intros x. rewrite elem_of_list_to_set,
    list_elem_of_fmap. split.
  - intros (c & -> & [Hc _]%list_elem_of_filter). done.
  - intros Hx. pose proof Hx as Hx'.
    apply elem_of_difference in Hx' as [Hx' _].
    apply elem_of_list_to_set, list_elem_of_fmap in Hx' as (c & -> & Hc).
    exists c. split; [done|]. by apply list_elem_of_filter.
Qed.

(** Course 4 of [diamond_index], with courses 1, 3 and 42 completed. *)
Lemma skill_gap_analysis_counts_witness :
  ∃ d, skill_gap_analysis diamond_index gap_completed (Some 4) = SkillGapData d
       ∧ length (missing_courses d) = total_missing d
       ∧ NoDup (course_id <$> missing_courses d).
Proof.
  eexists. split; [reflexivity|].
  apply (skill_gap_analysis_counts diamond_courses gap_completed (Some 4)).
  reflexivity.
Defined.

(** ** The chat handlers *)


(** [sample_sorted] has distinct ids. *)
Lemma build_course_index_round_trip_witness :
  (map_to_list (build_course_index sample_sorted)).*2 ≡ₚ sample_sorted
  ∧ size (build_course_index sample_sorted) = length sample_sorted
  ∧ Forall (λ c, build_course_index sample_sorted !! course_id c = Some c)
           sample_sorted.
Proof.
  apply (build_course_index_round_trip sample_sorted).
  apply (bool_decide_unpack _). by vm_compute.
Defined.

(** * The data tidying of the mock engine *)

Section SortedAsc.
Context {A : Type} (key : A → Z).
Implicit Types (x : A) (l : list A).

Lemma insert_asc_Permutation x l : PySort.insert_asc key x l ≡ₚ x :: l.
Proof.
  induction l as [|y l IH]; simpl; [done|].
  destruct (key x <=? key y); [done|].
  rewrite IH. apply Permutation_swap.
Qed.

Lemma sorted_asc_Permutation l : PySort.sorted_asc key l ≡ₚ l.
Proof.
  induction l as [|x l IH]; simpl; [done|].
  by rewrite insert_asc_Permutation, IH.
Qed.

Lemma insert_asc_sorted x l :
  StronglySorted (λ a b, key a ≤ key b) l →
  StronglySorted (λ a b, key a ≤ key b) (PySort.insert_asc key x l).
Proof.
  induction l as [|y l IH]; intros Hsorted; simpl.
  - by repeat constructor.
  - apply StronglySorted_inv in Hsorted as [Hsorted Hy].
    destruct (key x <=? key y) eqn:Hle.
    + apply Z.leb_le in Hle. constructor; [by constructor|].
      constructor; [done|]. eapply Forall_impl; [exact Hy|]. simpl. lia.
    + apply Z.leb_gt in Hle. constructor; [by apply IH|].
      rewrite insert_asc_Permutation. constructor; [lia|done].
Qed.

Lemma sorted_asc_sorted l :
  StronglySorted (λ a b, key a ≤ key b) (PySort.sorted_asc key l).
Proof.
  induction l as [|x l IH]; simpl; [constructor|]. by apply insert_asc_sorted.
Qed.

(** Sorting a sorted list changes nothing. *)
Lemma sorted_asc_id l :
  StronglySorted (λ a b, key a ≤ key b) l → PySort.sorted_asc key l = l.
Proof.
  induction 1 as [|x l Hsorted IH Hx]; simpl; [done|].
  rewrite IH. destruct l as [|y l]; simpl; [done|].
  apply Forall_cons in Hx as [Hxy _].
  by rewrite (proj2 (Z.leb_le _ _) Hxy).
Qed.
End SortedAsc.

(** Ascending keys without repeats ascend strictly. *)
Lemma sorted_distinct_strict (l : list Z) :
  StronglySorted Z.le l → NoDup l → Sorted Z.lt l.
Proof.
  induction 1 as [|x l Hsorted IH Hx]; intros Hnd; [constructor|].
  apply NoDup_cons in Hnd as [Hfresh Hnd].
  constructor; [by apply IH|].
  destruct l as [|y l]; constructor.
  apply Forall_cons in Hx as [Hxy _].
  assert (x ≠ y) by (intros ->; apply Hfresh; constructor). lia.
Qed.

Lemma tidy_row_inv (rows : list Course) (st : tidy_state) (row : Course) :
  tidy_inv rows st → tidy_inv (rows ++ [row]) (tidy_row st row).
Proof.
  intros (Hnd & Hseen & Hok & Hsub & Hcover & Hcount).
  unfold tidy_row.
  destruct (decide (course_id row ∈ tidy_seen_ids st)) as [Hdup|Hnew];
    [|destruct (has_title_and_category row) eqn:Hrow].
  - repeat split; simpl; try done.
    + by apply Hseen.
    + by apply Hseen.
    + by apply sublist_inserts_r.
    + intros r [Hr | ->%list_elem_of_singleton]%elem_of_app Hgood;
        [by apply Hcover|done].
    + rewrite length_app. simpl. lia.
  - repeat split; simpl.
    + rewrite fmap_app. apply NoDup_app. split; [done|]. split.
      * intros id Hid ->%list_elem_of_singleton. by apply Hnew, Hseen.
      * apply NoDup_singleton.
    + rewrite elem_of_union, elem_of_singleton, fmap_app, elem_of_app, Hseen.
      simpl. rewrite list_elem_of_singleton. tauto.
    + rewrite elem_of_union, elem_of_singleton, fmap_app, elem_of_app, Hseen.
      simpl. rewrite list_elem_of_singleton. tauto.
    + apply Forall_app. split; [done|]. by repeat constructor.
    + by apply sublist_app.
    + intros r [Hr | ->%list_elem_of_singleton]%elem_of_app Hgood.
      * apply elem_of_union. left. by apply Hcover.
      * apply elem_of_union. right. by apply elem_of_singleton.
    + rewrite !length_app. simpl. lia.
  - repeat split; simpl; try done.
    + by apply Hseen.
    + by apply Hseen.
    + by apply sublist_inserts_r.
    + intros r [Hr | ->%list_elem_of_singleton]%elem_of_app Hgood;
        [by apply Hcover|congruence].
    + rewrite length_app. simpl. lia.
Qed.

Lemma tidy_rows_inv (rows : list Course) :
  tidy_inv rows (foldl tidy_row (mkTidy [] ∅ 0 0) rows).
Proof.
  induction rows as [|row rows IH] using rev_ind.
  - split; [constructor|]. split.
    { intros id. simpl. split; [by intros ?%elem_of_empty|].
      by intros ?%elem_of_nil. }
    split; [constructor|]. split; [done|].
    split; [by intros r ?%elem_of_nil|done].
  - rewrite foldl_app. simpl. by apply tidy_row_inv.
Qed.

Lemma drop_broken_links_ids (valid_ids : gset Z) (raw : list Course) :
  course_id <$> (drop_broken_links valid_ids <$> raw) = course_id <$> raw.
Proof. rewrite <- list_fmap_compose. by apply list_fmap_ext. Qed.

(** With all its links valid a course is left as it is. *)
Lemma drop_broken_links_id (valid_ids : gset Z) (r : Course) :
  Forall (λ p, p ∈ valid_ids) (prerequisite_ids r) →
  drop_broken_links valid_ids r = r.
Proof.
  intros Hall. destruct r. unfold drop_broken_links; simpl in *.
  by rewrite filter_Forall_id.
Qed.

(** Rows with distinct, unseen ids and with titles and categories are all
    kept, and nothing is counted as removed. *)
Lemma tidy_keeps_all (rows : list Course) (st : tidy_state) :
  NoDup (course_id <$> rows) →
  Forall (λ r, has_title_and_category r = true) rows →
  (∀ r, r ∈ rows → course_id r ∉ tidy_seen_ids st) →
  tidy_raw (foldl tidy_row st rows) = tidy_raw st ++ rows
  ∧ tidy_duplicates (foldl tidy_row st rows) = tidy_duplicates st
  ∧ tidy_missing (foldl tidy_row st rows) = tidy_missing st.
Proof.
  revert st. induction rows as [|row rows IH]; intros st Hnd Hok Hnew.
  - simpl. by rewrite app_nil_r.
  - rewrite fmap_cons in Hnd. apply NoDup_cons in Hnd as [Hfresh Hnd].
    apply Forall_cons in Hok as [Hrow Hok]. simpl.
    assert (tidy_row st row
            = mkTidy (tidy_raw st ++ [row])
                     (tidy_seen_ids st ∪ {[course_id row]})
                     (tidy_duplicates st) (tidy_missing st)) as ->.
    { unfold tidy_row. rewrite decide_False by (apply Hnew; constructor).
      by rewrite Hrow. }
    destruct (IH (mkTidy (tidy_raw st ++ [row])
                         (tidy_seen_ids st ∪ {[course_id row]})
                         (tidy_duplicates st) (tidy_missing st)))
      as (Hraw & Hdup & Hmiss); [done..| |].
    + simpl. intros r Hr [Hseen | Heq%elem_of_singleton]%elem_of_union.
      * by apply (Hnew r); [constructor|].
      * apply Hfresh. rewrite <- Heq. by apply list_elem_of_fmap_2.
    + rewrite Hraw, Hdup, Hmiss. simpl. by rewrite <- app_assoc.
Qed.

Lemma fmap_Forall_id {A} (f : A → A) (l : list A) :
  Forall (λ x, f x = x) l → f <$> l = l.
Proof.
  induction 1 as [|x l Hx Hl IH]; [done|]. by rewrite fmap_cons, Hx, IH.
Qed.

Lemma no_broken_links (valid_ids : gset Z) (raw : list Course) (n : nat) :
  Forall (λ r, drop_broken_links valid_ids r = r) raw →
  foldl (λ n r, (n + (length (prerequisite_ids r)
                      - length (prerequisite_ids
                                  (drop_broken_links valid_ids r))))%nat)
        n raw = n.
Proof.
  intros Hall. revert n. induction Hall as [|r raw Hr Hall IH]; intros n;
    [done|].
  cbn [foldl]. rewrite Hr, IH. lia.
Qed.

(** What [load_and_tidy] returns, in terms of the rows it kept. *)
Lemma load_and_tidy_output (rows : list Course) :
  let raw := tidy_raw (foldl tidy_row (mkTidy [] ∅ 0 0) rows) in
  let out := (load_and_tidy rows).1 in
  out ≡ₚ drop_broken_links (list_to_set (course_id <$> raw)) <$> raw
  ∧ course_id <$> out ≡ₚ course_id <$> raw
  ∧ StronglySorted (λ a b, course_id a ≤ course_id b) out.
Proof.
  intros raw out. unfold out, load_and_tidy. simpl. fold raw.
  split; [apply sorted_asc_Permutation|]. split.
  - by rewrite sorted_asc_Permutation, drop_broken_links_ids.
  - apply sorted_asc_sorted.
Qed.

Lemma load_and_tidy_sorted (rows : list Course) :
  sorted_by_id (load_and_tidy rows).1.
Proof.
  destruct (load_and_tidy_output rows) as (_ & Hids & Hsorted).
  destruct (tidy_rows_inv rows) as (Hnd & _).
  apply sorted_distinct_strict.
  - by apply (StronglySorted_fmap course_id
                (λ a b, course_id a ≤ course_id b) Z.le).
  - by rewrite Hids.
Qed.

Lemma load_and_tidy_links (rows : list Course) :
  Forall (λ c, Forall (λ p, p ∈ course_id <$> (load_and_tidy rows).1)
                      (prerequisite_ids c))
         (load_and_tidy rows).1.
Proof.
  destruct (load_and_tidy_output rows) as (Hout & Hids & _).
  apply Forall_forall. intros c Hc. rewrite Hout in Hc.
  apply list_elem_of_fmap in Hc as (r & -> & Hr). simpl.
  apply Forall_forall. intros p [Hp _]%list_elem_of_filter.
  rewrite Hids. by apply elem_of_list_to_set in Hp.
Qed.

Lemma load_and_tidy_titles (rows : list Course) :
  Forall (λ c, has_title_and_category c = true) (load_and_tidy rows).1.
Proof.
  destruct (load_and_tidy_output rows) as (Hout & _ & _).
  destruct (tidy_rows_inv rows) as (_ & _ & Hok & _).
  rewrite Hout. apply Forall_fmap. eapply Forall_impl; [exact Hok|].
  by intros [].
Qed.

(** X23.  Whatever the rows, the list [load_and_tidy] returns is sorted
    strictly ascending by id, every course in it has a title and a category
    that are not blank, and every prerequisite id in it is the id of a
    course in it; so [binary_search] on it agrees with the index built from
    it. *)
Theorem load_and_tidy_tidy :
  ∀ (rows : list Course),
    let out := (load_and_tidy rows).1 in
    sorted_by_id out
    ∧ Forall (λ c, has_title_and_category c = true) out
    ∧ Forall (λ c, Forall (λ p, p ∈ course_id <$> out) (prerequisite_ids c))
             out
    ∧ ∀ id, binary_search out id = Return (build_course_index out !! id).
Proof.
  intros rows out. unfold out.
  pose proof (load_and_tidy_sorted rows) as Hsorted.
  split; [done|]. split; [apply load_and_tidy_titles|].
  split; [apply load_and_tidy_links|].
  intros id. apply bs_loop_correct; [done|lia..|].
  intros i c Hi _. apply lookup_lt_Some in Hi. lia.
Qed.

(** X24.  Nothing is invented and nothing valid is lost: every course
    [load_and_tidy] returns is a row of the input with its broken links
    removed, and every id that some row with a title and a category carries
    is the id of a returned course. *)
Theorem load_and_tidy_provenance :
  ∀ (rows : list Course),
    let out := (load_and_tidy rows).1 in
    Forall (λ c, ∃ r, r ∈ rows
                      ∧ c = drop_broken_links
                              (list_to_set (course_id <$> out)) r) out
    ∧ Forall (λ r, has_title_and_category r = true →
                   course_id r ∈ course_id <$> out) rows.
Proof.
  intros rows out. unfold out.
  destruct (load_and_tidy_output rows) as (Hout & Hids & _).
  destruct (tidy_rows_inv rows) as (_ & Hseen & _ & Hsub & Hcover & _).
  set (raw := tidy_raw _) in *.
  assert (list_to_set (course_id <$> (load_and_tidy rows).1)
          = (list_to_set (course_id <$> raw) : gset Z)) as Hvalid.
  { apply set_eq. intros id. by rewrite !elem_of_list_to_set, Hids. }
  split.
  - apply Forall_forall. intros c Hc. rewrite Hout in Hc.
    apply list_elem_of_fmap in Hc as (r & -> & Hr). exists r.
    split; [by eapply sublist_subseteq|]. by rewrite Hvalid.
  - apply Forall_forall. intros r Hr Hgood. rewrite Hids.
    by apply Hseen, Hcover.
Qed.

(** X25.  The report adds up: the rows kept, the duplicates removed and
    the rows removed for a missing field are all the rows, and the rows kept
    are the courses returned. *)
Theorem load_and_tidy_report :
  ∀ (rows : list Course),
    let '(out, report) := load_and_tidy rows in
    total_loaded report = length out
    ∧ (total_loaded report + duplicates_removed report
       + missing_fields_removed report = length rows)%nat.
Proof.
  intros rows. unfold load_and_tidy. simpl. split; [done|].
  destruct (tidy_rows_inv rows) as (_ & _ & _ & _ & _ & Hcount).
  rewrite <- Hcount. f_equal. f_equal.
  etrans; [apply Permutation_length, sorted_asc_Permutation|].
  apply length_fmap.
Qed.

(** X26.  Tidying is idempotent: [load_and_tidy] run on the list it
    returned returns that list, and reports nothing removed. *)
Theorem load_and_tidy_idempotent :
  ∀ (rows : list Course),
    let out := (load_and_tidy rows).1 in
    load_and_tidy out = (out, mkReport (length out) 0 0 0).
Proof.
  intros rows out.
  pose proof (load_and_tidy_sorted rows) as Hsorted.
  pose proof (load_and_tidy_titles rows) as Htitles.
  pose proof (load_and_tidy_links rows) as Hlinks.
  destruct (load_and_tidy_output rows) as (_ & _ & Hle).
  fold out in Hsorted, Htitles, Hlinks, Hle.
  destruct (tidy_keeps_all out (mkTidy [] ∅ 0 0)) as (Hraw & Hdup & Hmiss).
  { by apply sorted_by_id_NoDup. }
  { done. }
  { intros r _. apply not_elem_of_empty. }
  simpl in Hraw, Hdup, Hmiss.
  assert (Forall (λ r, drop_broken_links
                         (list_to_set (course_id <$> out)) r = r) out)
    as Hsame.
  { eapply Forall_impl; [exact Hlinks|]. intros r Hr.
    apply drop_broken_links_id. eapply Forall_impl; [exact Hr|].
    intros p Hp. by apply elem_of_list_to_set. }
  unfold load_and_tidy. rewrite Hraw, Hdup, Hmiss.
  rewrite (fmap_Forall_id _ _ Hsame), (no_broken_links _ _ _ Hsame).
  by rewrite (sorted_asc_id course_id out Hle).
Qed.

(** * The recursive learning path of the mock engine *)

Lemma foldl_ext_all {A B} (f g : A → B → A) (l : list B) (a : A) :
  (∀ a b, f a b = g a b) → foldl f a l = foldl g a l.
Proof.
  intros Hfg. revert a. induction l as [|b l IH]; intros a; [done|].
  simpl. by rewrite Hfg, IH.
Qed.

Section MockPath.
Context (index : gmap Z Course) (max_depth : Z).

(** Fuel beyond the depth that is left changes nothing. *)
Lemma visit_path_fuel (fuel fuel' : nat) (id : Z) (visited : gset Z)
    (depth : Z) :
  max_depth - depth + 1 ≤ Z.of_nat fuel →
  max_depth - depth + 1 ≤ Z.of_nat fuel' →
  Mock.visit_path fuel index max_depth id visited depth
  = Mock.visit_path fuel' index max_depth id visited depth.
Proof.
  revert fuel' id visited depth.
  induction fuel as [|fuel IH]; intros fuel' id visited depth Hf Hf'.
  - destruct fuel' as [|fuel']; [done|]. simpl.
    destruct (index !! id); [|done]. case_decide; [done|].
    destruct (depth >? max_depth) eqn:Hd; [done|].
    rewrite Z.gtb_ltb in Hd. apply Z.ltb_ge in Hd. lia.
  - destruct fuel' as [|fuel'].
    + simpl. destruct (index !! id); [|done]. case_decide; [done|].
      destruct (depth >? max_depth) eqn:Hd; [done|].
      rewrite Z.gtb_ltb in Hd. apply Z.ltb_ge in Hd. lia.
    + simpl. destruct (index !! id) as [course|]; [|done].
      case_decide; [done|].
      destruct (depth >? max_depth) eqn:Hd; [done|].
      rewrite Z.gtb_ltb in Hd. apply Z.ltb_ge in Hd.
      assert (∀ acc pid,
                Mock.extend_path
                  (λ prereq_id vis,
                     Mock.visit_path fuel index max_depth prereq_id vis
                                     (depth + 1)) acc pid
                = Mock.extend_path
                    (λ prereq_id vis,
                       Mock.visit_path fuel' index max_depth prereq_id vis
                                       (depth + 1)) acc pid) as Hstep.
      { intros acc pid. unfold Mock.extend_path.
        rewrite (IH fuel'); [done|lia..]. }
      by rewrite (foldl_ext_all _ _ _ _ Hstep).
Qed.

Lemma path_keys_nil (visited : gset Z) :
  path_keys index visited [] ([], visited).
Proof.
  split; [constructor|]. split; [constructor|].
  split; [by intros k ?%elem_of_nil|]. simpl.
  by rewrite (right_id_L ∅ (∪)).
Qed.

(** Results chain: a call made from the set another call left. *)
Lemma path_keys_app (visited : gset Z) (ks ks' : list Z)
    (r r' : list Course * gset Z) :
  path_keys index visited ks r → path_keys index r.2 ks' r' →
  path_keys index visited (ks ++ ks') (r.1 ++ r'.1, r'.2).
Proof.
  intros (Hks & Hnd & Hnew & Hvis) (Hks' & Hnd' & Hnew' & Hvis').
  simpl. split; [by apply Forall2_app|]. split.
  - apply NoDup_app. split; [done|]. split; [|done].
    intros k Hk Hk'. apply (Hnew' k Hk'). rewrite Hvis.
    apply elem_of_union. right. by apply elem_of_list_to_set.
  - split.
    + intros k [Hk|Hk]%elem_of_app; [by apply Hnew|].
      intros Hv. apply (Hnew' k Hk). rewrite Hvis. apply elem_of_union.
      by left.
    + rewrite Hvis', Hvis, list_to_set_app_L. symmetry. apply (assoc_L (∪)).
Qed.

(** The course of the call is entered last. *)
Lemma path_keys_snoc (visited : gset Z) (ks : list Z) (id : Z)
    (course : Course) (r : list Course * gset Z) :
  index !! id = Some course → id ∉ visited →
  path_keys index (visited ∪ {[id]}) ks r →
  path_keys index visited (ks ++ [id]) (r.1 ++ [course], r.2).
Proof.
  intros Hid Hnew (Hks & Hnd & Hfresh & Hvis).
  simpl. split; [|split; [|split]].
  - apply Forall2_app; [done|]. by repeat constructor.
  - apply NoDup_app. split; [done|]. split; [|apply NoDup_singleton].
    intros k Hk Heq%list_elem_of_singleton. subst k. apply (Hfresh id Hk).
    apply elem_of_union. right. by apply elem_of_singleton.
  - intros k [Hk|Heq%list_elem_of_singleton]%elem_of_app; [|by subst k].
    intros Hv. apply (Hfresh k Hk). apply elem_of_union. by left.
  - rewrite Hvis, list_to_set_app_L. simpl. rewrite (right_id_L ∅ (∪)).
    rewrite <- !(assoc_L (∪)). f_equal. apply (comm_L (∪)).
Qed.

Lemma visit_path_keys (fuel : nat) (id : Z) (visited : gset Z) (depth : Z) :
  ∃ ks, path_keys index visited ks
          (Mock.visit_path fuel index max_depth id visited depth).
Proof.
  revert id visited depth.
  induction fuel as [|fuel IH]; intros id visited depth; simpl.
  - destruct (index !! id); [|exists []; apply path_keys_nil].
    case_decide; [exists []; apply path_keys_nil|].
    destruct (depth >? max_depth); exists []; apply path_keys_nil.
  - destruct (index !! id) as [course|] eqn:Hid;
      [|exists []; apply path_keys_nil].
    case_decide as Hnew; [exists []; apply path_keys_nil|].
    destruct (depth >? max_depth); [exists []; apply path_keys_nil|].
    set (step := Mock.extend_path _).
    assert (∃ ks, path_keys index (visited ∪ {[id]}) ks
              (foldl step ([], visited ∪ {[id]}) (prerequisite_ids course)))
      as (ks & Hks).
    { apply (foldl_invariant step
               (λ acc, ∃ ks, path_keys index (visited ∪ {[id]}) ks acc)).
      - intros acc pid (ks & Hacc). unfold step, Mock.extend_path.
        destruct (IH pid acc.2 (depth + 1)) as (ks' & Hks').
        exists (ks ++ ks'). by apply path_keys_app.
      - exists []. apply path_keys_nil. }
    exists (ks ++ [id]). by apply path_keys_snoc.
Qed.

(** The keys of a path are keys of the index, so a path is no longer than
    the index is large. *)
Lemma path_keys_length (visited : gset Z) (ks : list Z)
    (r : list Course * gset Z) :
  path_keys index visited ks r → (length r.1 ≤ size index)%nat.
Proof.
  intros (Hks & Hnd & _ & _).
  rewrite <- (Forall2_length _ _ _ Hks).
  rewrite <- (size_dom (D := gset Z)).
  rewrite <- (size_list_to_set (C := gset Z) ks) by done.
  apply subseteq_size. intros k Hk%elem_of_list_to_set.
  apply elem_of_dom. apply list_elem_of_lookup in Hk as (i & Hi).
  destruct (Forall2_lookup_l _ _ _ _ _ Hks Hi) as (c & _ & Hc). by exists c.
Qed.

(** A known id that is new and within the cap ends the path of its call. *)
Lemma visit_path_last (fuel : nat) (id : Z) (course : Course)
    (visited : gset Z) (depth : Z) :
  index !! id = Some course → id ∉ visited → depth ≤ max_depth →
  (0 < fuel)%nat →
  last (Mock.visit_path fuel index max_depth id visited depth).1
  = Some course.
Proof.
  intros Hid Hnew Hdepth Hfuel. destruct fuel as [|fuel]; [lia|]. simpl.
  rewrite Hid. rewrite decide_False by done.
  destruct (depth >? max_depth) eqn:Hd.
  { rewrite Z.gtb_ltb in Hd. apply Z.ltb_lt in Hd. lia. }
  simpl. apply last_snoc.
Qed.

Section Acyclic.
Context (rank : Z → nat) (Hrank : acyclic index rank).

Lemma acyclic_lower (k p : Z) (c : Course) :
  index !! k = Some c → p ∈ prerequisite_ids c → is_Some (index !! p) →
  (rank p < rank k)%nat.
Proof.
  intros Hk Hp Hs. pose proof (Hrank k c Hk) as Hall. simpl in Hall.
  rewrite Forall_forall in Hall. by apply Hall.
Qed.

Lemma keys_ordered_nil (visited : gset Z) (bound : nat) :
  keys_ordered index rank visited bound [].
Proof. split; [by intros k ?%elem_of_nil|]. by intros i k c p ?. Qed.

Lemma keys_ordered_app (visited : gset Z) (bound bound' : nat)
    (ks ks' : list Z) :
  (bound' ≤ bound)%nat →
  keys_ordered index rank visited bound ks →
  keys_ordered index rank (visited ∪ list_to_set ks) bound' ks' →
  keys_ordered index rank visited bound (ks ++ ks').
Proof.
  intros Hle (Hb & Hc) (Hb' & Hc'). split.
  - intros k [Hk|Hk]%elem_of_app; [by apply Hb|].
    specialize (Hb' k Hk). lia.
  - intros i k c p Hi Hk Hp Hs.
    apply lookup_app_Some in Hi as [Hi|(Hlen & Hi)].
    + destruct (Hc i k c p Hi Hk Hp Hs) as [Hv|(j & Hj & Hjp)]; [by left|].
      right. exists j. split; [done|]. by apply lookup_app_l_Some.
    + destruct (Hc' _ k c p Hi Hk Hp Hs) as [Hv|(j & Hj & Hjp)].
      * apply elem_of_union in Hv as [Hv|Hv]; [by left|].
        apply elem_of_list_to_set, list_elem_of_lookup in Hv as (j & Hjp).
        right. exists j. split.
        { apply lookup_lt_Some in Hjp. lia. }
        by apply lookup_app_l_Some.
      * right. exists (length ks + j)%nat. split; [lia|].
        rewrite lookup_app_r by lia.
        by replace (length ks + j - length ks)%nat with j by lia.
Qed.

(** A call on an acyclic catalog that the cap does not cut: its keys come
    in prerequisite-first order, and it leaves its id visited. *)
Lemma visit_path_ordered (fuel : nat) (id : Z) (visited : gset Z)
    (depth : Z) :
  max_depth - depth + 1 ≤ Z.of_nat fuel →
  (is_Some (index !! id) → depth + Z.of_nat (rank id) ≤ max_depth) →
  ∃ ks, path_keys index visited ks
          (Mock.visit_path fuel index max_depth id visited depth)
        ∧ keys_ordered index rank visited (S (rank id)) ks
        ∧ (index !! id = None → ks = [])
        ∧ (is_Some (index !! id) →
           id ∈ (Mock.visit_path fuel index max_depth id visited depth).2).
Proof.
  revert id visited depth.
  induction fuel as [|fuel IH]; intros id visited depth Hfuel Hcap.
  - simpl. destruct (index !! id) as [course|] eqn:Hid.
    + assert (depth ≤ max_depth) by (specialize (Hcap (mk_is_Some _ _ eq_refl)); lia).
      lia.
    + exists []. split; [apply path_keys_nil|].
      split; [apply keys_ordered_nil|]. split; [done|]. by intros [? ?].
  - simpl. destruct (index !! id) as [course|] eqn:Hid.
    2:{ exists []. split; [apply path_keys_nil|].
        split; [apply keys_ordered_nil|]. split; [done|]. by intros [? ?]. }
    assert (depth + Z.of_nat (rank id) ≤ max_depth) as Hcap'
      by (apply Hcap; by eexists).
    case_decide as Hnew.
    { exists []. split; [apply path_keys_nil|].
      split; [apply keys_ordered_nil|]. done. }
    destruct (depth >? max_depth) eqn:Hd.
    { rewrite Z.gtb_ltb in Hd. apply Z.ltb_lt in Hd. lia. }
    set (step := Mock.extend_path _).
    set (V0 := visited ∪ {[id]}).
    assert (∀ l, (∀ p, p ∈ l → p ∈ prerequisite_ids course) →
              ∃ ks, path_keys index V0 ks (foldl step ([], V0) l)
                    ∧ keys_ordered index rank V0 (rank id) ks
                    ∧ ∀ p, p ∈ l → is_Some (index !! p) →
                           p ∈ (foldl step ([], V0) l).2) as Hfold.
    { induction l as [|pid l IHl] using rev_ind; intros Hl.
      - exists []. split; [apply path_keys_nil|].
        split; [apply keys_ordered_nil|]. by intros p ?%elem_of_nil.
      - destruct IHl as (ks & Hks & Hord & Hin).
        { intros p Hp. apply Hl, elem_of_app. by left. }
        rewrite foldl_app. simpl. set (acc := foldl step ([], V0) l) in *.
        unfold step at 1, Mock.extend_path. fold acc.
        assert (pid ∈ prerequisite_ids course) as Hpid.
        { apply Hl, elem_of_app. right. by apply list_elem_of_singleton. }
        destruct (IH pid acc.2 (depth + 1))
          as (ks' & Hks' & Hord' & Hnone' & Hin').
        { lia. }
        { intros Hs. pose proof (acyclic_lower id pid course Hid Hpid Hs).
          lia. }
        set (sub := Mock.visit_path fuel index max_depth pid acc.2
                                    (depth + 1)) in *.
        exists (ks ++ ks'). split; [by apply path_keys_app|]. split.
        + destruct (index !! pid) as [cp|] eqn:Hp.
          * apply (keys_ordered_app _ _ (S (rank pid))); [|done|].
            { pose proof (acyclic_lower id pid course Hid Hpid) as Hlt.
              rewrite Hp in Hlt. specialize (Hlt (mk_is_Some _ _ eq_refl)).
              lia. }
            destruct Hks as (_ & _ & _ & Hacc). by rewrite <- Hacc.
          * rewrite (Hnone' eq_refl).
            apply (keys_ordered_app _ _ 0%nat); [lia|done|].
            apply keys_ordered_nil.
        + simpl. intros p [Hp|Hp]%elem_of_app Hs.
          * destruct Hks' as (_ & _ & _ & Hsub). rewrite Hsub.
            apply elem_of_union. left. by apply Hin.
          * apply list_elem_of_singleton in Hp. subst p. by apply Hin'. }
    destruct (Hfold (prerequisite_ids course)) as (ks & Hks & Hord & Hin);
      [done|].
    set (r := foldl step ([], V0) (prerequisite_ids course)) in *.
    exists (ks ++ [id]). split; [by apply path_keys_snoc|].
    split; [|split; [done|]].
    + destruct Hord as (Hb & Hc). split.
      * intros k [Hk|Hk%list_elem_of_singleton]%elem_of_app;
          [specialize (Hb k Hk); lia|subst k; lia].
      * intros i k c p Hi Hk Hp Hs.
        apply lookup_app_Some in Hi as [Hi|(Hlen & Hi)].
        -- destruct (Hc i k c p Hi Hk Hp Hs) as [Hv|(j & Hj & Hjp)].
           ++ apply elem_of_union in Hv as [Hv|Hv]; [by left|].
              apply elem_of_singleton in Hv. subst p.
              pose proof (acyclic_lower k id c Hk Hp Hs).
              assert (k ∈ ks) as Hkin by (by eapply list_elem_of_lookup_2).
              specialize (Hb k Hkin). lia.
           ++ right. exists j. split; [done|]. by apply lookup_app_l_Some.
        -- apply list_lookup_singleton_Some in Hi as (Hi0 & Heq). subst k.
           rewrite Hid in Hk. injection Hk as <-.
           pose proof (Hin p Hp Hs) as Hpin.
           destruct Hks as (_ & _ & _ & Hr). rewrite Hr in Hpin.
           apply elem_of_union in Hpin as [Hpin|Hpin].
           ++ apply elem_of_union in Hpin as [Hv|Hv]; [by left|].
              apply elem_of_singleton in Hv. subst p.
              pose proof (acyclic_lower id id course Hid Hp Hs). lia.
           ++ apply elem_of_list_to_set, list_elem_of_lookup in Hpin
                as (j & Hjp).
              right. exists j. split.
              { apply lookup_lt_Some in Hjp. lia. }
              by apply lookup_app_l_Some.
    + intros _. simpl. destruct Hks as (_ & _ & _ & Hr). rewrite Hr.
      apply elem_of_union. left. apply elem_of_union. right.
      by apply elem_of_singleton.
Qed.

End Acyclic.
End MockPath.

Example load_and_tidy_untidy_rows :
  (λ out, (course_id <$> out.1, prerequisite_ids <$> out.1, out.2))
    (load_and_tidy untidy_rows)
  = ([1; 2; 5], [[2]; [5]; []], mkReport 3 1 1 2).
Proof. by vm_compute. Qed.

Example mock_get_learning_path_diamond :
  course_id <$> Mock.get_learning_path 4 diamond_index 20 = [1; 2; 3; 4].
Proof. by vm_compute. Qed.

Example mock_get_learning_path_cycle :
  course_id <$> Mock.get_learning_path 1 cycle_index 20 = [3; 2; 1].
Proof. by vm_compute. Qed.

(** X27.  The recursive path never lists an index entry twice: the
    courses it returns are the entries of pairwise distinct keys of the
    index, so the path is no longer than the index is large, whatever the
    prerequisites are, circular ones included. *)
Theorem mock_get_learning_path_distinct :
  ∀ (index : gmap Z Course) (course_id max_depth : Z),
    ∃ ks : list Z,
      Forall2 (λ k c, index !! k = Some c) ks
              (Mock.get_learning_path course_id index max_depth)
      ∧ NoDup ks
      ∧ (length (Mock.get_learning_path course_id index max_depth)
         ≤ size index)%nat.
Proof.
  intros index id max_depth. unfold Mock.get_learning_path.
  destruct (visit_path_keys index max_depth (Z.to_nat (max_depth + 1))
                            id ∅ 0) as (ks & Hks).
  exists ks. split; [apply Hks|]. split; [apply Hks|].
  by eapply path_keys_length.
Qed.

(** X28.  The target closes the path: for an id the index lacks the path
    is empty, for a known id and [max_depth >= 0] the last course of the
    path is the index entry of the id, and a negative [max_depth] gives the
    empty path. *)
Theorem mock_get_learning_path_target_last :
  ∀ (index : gmap Z Course) (course_id max_depth : Z),
    match index !! course_id with
    | None => Mock.get_learning_path course_id index max_depth = []
    | Some course =>
        if max_depth <? 0
        then Mock.get_learning_path course_id index max_depth = []
        else last (Mock.get_learning_path course_id index max_depth)
             = Some course
    end.
Proof.
  intros index id max_depth. unfold Mock.get_learning_path.
  destruct (index !! id) as [course|] eqn:Hid.
  - destruct (max_depth <? 0) eqn:Hneg.
    + apply Z.ltb_lt in Hneg.
      replace (Z.to_nat (max_depth + 1)) with 0%nat by lia. simpl.
      rewrite Hid. rewrite decide_False by apply not_elem_of_empty.
      destruct (0 >? max_depth) eqn:Hd; [done|].
      rewrite Z.gtb_ltb in Hd. apply Z.ltb_ge in Hd. lia.
    + apply Z.ltb_ge in Hneg.
      apply visit_path_last; [done|apply not_elem_of_empty|done|lia].
  - destruct (Z.to_nat (max_depth + 1)); simpl; by rewrite Hid.
Qed.

(** X29.  On a catalog without circular prerequisites whose chains below
    the target are no longer than [max_depth], the path is in
    prerequisite-first order and closed: every known prerequisite of every
    course of the path is in the path, before that course. *)
Theorem mock_get_learning_path_prerequisites_first :
  ∀ (index : gmap Z Course) (rank : Z → nat) (course_id max_depth : Z),
    acyclic index rank →
    Z.of_nat (rank course_id) ≤ max_depth →
    prerequisites_first index
      (Mock.get_learning_path course_id index max_depth).
Proof.
  intros index rank id max_depth Hrank Hcap. unfold Mock.get_learning_path.
  destruct (visit_path_ordered index max_depth rank Hrank
              (Z.to_nat (max_depth + 1)) id ∅ 0)
    as (ks & (Hks & _) & (_ & Hord) & _); [lia|intros _; lia|].
  intros i c p cp Hi Hp Hcp.
  destruct (Forall2_lookup_r _ _ _ _ _ Hks Hi) as (k & Hk & Hkc).
  destruct (Hord i k c p Hk Hkc Hp) as [Hv|(j & Hj & Hjp)]; [by eexists| |].
  { by apply not_elem_of_empty in Hv. }
  destruct (Forall2_lookup_l _ _ _ _ _ Hks Hjp) as (c' & Hc' & Hpc').
  exists j. split; [done|]. rewrite Hc'. congruence.
Qed.

Lemma mock_get_learning_path_prerequisites_first_witness :
  prerequisites_first diamond_index
    (Mock.get_learning_path 4 diamond_index 20).
Proof.
  apply (mock_get_learning_path_prerequisites_first
           diamond_index diamond_rank 4 20).
  - apply (bool_decide_unpack _). by vm_compute.
  - by vm_compute.
Defined.

(** X30.  The depth guard bounds the recursion: a call from depth 0 nests
    at most [max_depth + 1] calls, so any larger bound on the nesting gives
    the same path and the same visited set. *)
Theorem mock_get_learning_path_recursion_depth :
  ∀ (index : gmap Z Course) (course_id max_depth : Z) (fuel : nat),
    max_depth + 1 ≤ Z.of_nat fuel →
    (Mock.visit_path fuel index max_depth course_id ∅ 0).1
    = Mock.get_learning_path course_id index max_depth.
Proof.
  intros index id max_depth fuel Hfuel. unfold Mock.get_learning_path.
  f_equal. apply visit_path_fuel; lia.
Qed.

Lemma mock_get_learning_path_recursion_depth_witness :
  (Mock.visit_path 100 cycle_index 20 1 ∅ 0).1
  = Mock.get_learning_path 1 cycle_index 20.
Proof.
  apply (mock_get_learning_path_recursion_depth cycle_index 1 20 100).
  by vm_compute.
Defined.
